(** * valuepath: the path parser and the Path value, embedded from the Go source

    The source is in the middle of a change from string parts to [pathPart]
    parts and does not type-check as it stands; each place where the model
    has to pick a reading says which one and why.

    Go strings are byte sequences: they are modelled as [string], whose
    characters are the 8-bit [ascii].  Go's [int] is modelled as [Z]; every
    integer the parser computes is an index bounded by the length of the
    subject or the result of [strconv.Atoi], which is range-checked, so no
    arithmetic wraps. *)

From Stdlib Require Import ZArith Ascii String List Lia Bool.
From stdpp Require Import base option list strings.

Local Open Scope Z_scope.

(** ** The parts of the Go standard library the package calls *)

Module GoStrings.

(** The numeric value of a byte. *)
Definition byte_val (c : ascii) : Z := Z.of_N (N_of_ascii c).

(** [len(s)] *)
Definition len (s : string) : Z := Z.of_nat (String.length s).

(** [s[i]]: [None] stands for the run-time panic on an index out of range. *)
Definition byte_at (s : string) (i : Z) : option ascii :=
  if i <? 0 then None else String.get (Z.to_nat i) s.

Fixpoint drop_bytes (n : nat) (s : string) : string :=
  match n, s with
  | O, _ => s
  | S n', String.String _ s' => drop_bytes n' s'
  | S _, EmptyString => EmptyString
  end.

Fixpoint take_bytes (n : nat) (s : string) : string :=
  match n, s with
  | S n', String.String c s' => String.String c (take_bytes n' s')
  | _, _ => EmptyString
  end.

(** [s[lo:]]: panics unless [0 <= lo <= len(s)]. *)
Definition slice_from (s : string) (lo : Z) : option string :=
  if (lo <? 0) || (len s <? lo) then None
  else Some (drop_bytes (Z.to_nat lo) s).

(** [s[lo:hi]]: panics unless [0 <= lo <= hi <= len(s)]. *)
Definition slice (s : string) (lo hi : Z) : option string :=
  if (lo <? 0) || (hi <? lo) || (len s <? hi) then None
  else Some (take_bytes (Z.to_nat (hi - lo)) (drop_bytes (Z.to_nat lo) s)).

Fixpoint contains_byte (chars : string) (c : ascii) : bool :=
  match chars with
  | EmptyString => false
  | String.String d chars' => Ascii.eqb c d || contains_byte chars' c
  end.

(** [strings.IndexAny(s, chars)] for an ASCII-only [chars] (both call sites
    pass ASCII literals): the index of the first byte of [s] that occurs in
    [chars], or -1. *)
Fixpoint IndexAny_from (i : Z) (s chars : string) : Z :=
  match s with
  | EmptyString => -1
  | String.String c s' =>
      if contains_byte chars c then i else IndexAny_from (i + 1) s' chars
  end.

Definition IndexAny (s chars : string) : Z := IndexAny_from 0 s chars.

(** [strings.Split(s, sep)] for a one-byte separator: a string with n
    separators gives n+1 fields, so the empty string gives one empty field. *)
Fixpoint Split (s : string) (sep : ascii) : list string :=
  match s with
  | EmptyString => [EmptyString]
  | String.String c s' =>
      if Ascii.eqb c sep then EmptyString :: Split s' sep
      else match Split s' sep with
           | f :: fs => String.String c f :: fs
           | [] => [String.String c EmptyString]
           end
  end.

(** [strings.Join(elems, sep)] *)
Fixpoint Join (elems : list string) (sep : string) : string :=
  match elems with
  | [] => EmptyString
  | [e] => e
  | e :: es => e ++ sep ++ Join es sep
  end.

(** [unicode.IsDigit] on a byte converted to a rune: below U+0100 the only
    decimal digits are '0'..'9'. *)
Definition IsDigit (c : ascii) : bool :=
  (48 <=? byte_val c) && (byte_val c <=? 57).

Fixpoint all_digits (s : string) : bool :=
  match s with
  | EmptyString => true
  | String.String c s' => IsDigit c && all_digits s'
  end.

Fixpoint decimal_value (acc : Z) (s : string) : Z :=
  match s with
  | EmptyString => acc
  | String.String c s' => decimal_value (10 * acc + (byte_val c - 48)) s'
  end.

Definition maxInt : Z := 2 ^ 63 - 1.
Definition minInt : Z := - 2 ^ 63.

(** [strconv.Atoi(s)] on a 64-bit platform: an optional sign, then one or
    more decimal digits; [None] is the syntax or the range error. *)
Definition Atoi (s : string) : option Z :=
  let '(neg, body) :=
    match s with
    | String.String "+" r => (false, r)
    | String.String "-" r => (true, r)
    | _ => (false, s)
    end in
  match body with
  | EmptyString => None
  | _ =>
      if all_digits body then
        let v := decimal_value 0 body in
        let n := if neg then - v else v in
        if (minInt <=? n) && (n <=? maxInt) then Some n else None
      else None
  end.

(** *** strings.EqualFold

    EqualFold compares two strings, read as UTF-8, under simple Unicode case
    folding.  The decoder below is utf8.DecodeRuneInString: the rune and its
    width; an invalid or truncated encoding decodes as (RuneError, 1). *)

Definition RuneError : Z := 65533.

Definition between (lo hi : Z) (c : ascii) : bool :=
  (lo <=? byte_val c) && (byte_val c <=? hi).

Definition low6 (c : ascii) : Z := Z.land (byte_val c) 63.

Definition DecodeRune (s : string) : Z * nat :=
  match s with
  | EmptyString => (RuneError, 0%nat)
  | String.String b0 s1 =>
      let x := byte_val b0 in
      if x <? 128 then (x, 1%nat)
      else if (x <? 194) || (244 <? x) then (RuneError, 1%nat)
      else if x <? 224 then
        match s1 with
        | String.String b1 _ =>
            if between 128 191 b1
            then (Z.lor (Z.shiftl (Z.land x 31) 6) (low6 b1), 2%nat)
            else (RuneError, 1%nat)
        | _ => (RuneError, 1%nat)
        end
      else if x <? 240 then
        let lo := if x =? 224 then 160 else 128 in
        let hi := if x =? 237 then 159 else 191 in
        match s1 with
        | String.String b1 (String.String b2 _) =>
            if between lo hi b1 && between 128 191 b2
            then (Z.lor (Z.shiftl (Z.land x 15) 12)
                    (Z.lor (Z.shiftl (low6 b1) 6) (low6 b2)), 3%nat)
            else (RuneError, 1%nat)
        | _ => (RuneError, 1%nat)
        end
      else
        let lo := if x =? 240 then 144 else 128 in
        let hi := if x =? 244 then 143 else 191 in
        match s1 with
        | String.String b1 (String.String b2 (String.String b3 _)) =>
            if between lo hi b1 && between 128 191 b2 && between 128 191 b3
            then (Z.lor (Z.shiftl (Z.land x 7) 18)
                    (Z.lor (Z.shiftl (low6 b1) 12)
                       (Z.lor (Z.shiftl (low6 b2) 6) (low6 b3))), 4%nat)
            else (RuneError, 1%nat)
        | _ => (RuneError, 1%nat)
        end
  end.

(** The runes a [range] loop over the string visits; [skip] counts the
    continuation bytes of the rune decoded last. *)
Fixpoint runes_skip (skip : nat) (s : string) : list Z :=
  match s with
  | EmptyString => []
  | String.String _ s' =>
      match skip with
      | S k => runes_skip k s'
      | O => let '(r, sz) := DecodeRune s in r :: runes_skip (sz - 1) s'
      end
  end.

Definition runes (s : string) : list Z := runes_skip 0 s.

Section EqualFold.

(** The case-folding table of package unicode is not part of the model:
    [foldOrbit lo hi] stands for the loop that follows unicode.SimpleFold
    from [lo] and reports whether it reaches [hi]; EqualFold consults it
    only for two different runes of which the larger is not ASCII. *)
Variable foldOrbit : Z -> Z -> bool.

Definition upper_lower (lo hi : Z) : bool :=
  (65 <=? lo) && (lo <=? 90) && (hi =? lo + 32).

Definition foldRune (sr tr : Z) : bool :=
  if tr =? sr then true
  else
    let lo := Z.min sr tr in
    let hi := Z.max sr tr in
    if hi <? 128 then upper_lower lo hi else foldOrbit lo hi.

Fixpoint foldRunes (rs rt : list Z) : bool :=
  match rs, rt with
  | [], [] => true
  | sr :: rs', tr :: rt' => foldRune sr tr && foldRunes rs' rt'
  | _, _ => false
  end.

(** The byte loop over the common ASCII prefix, then, from the first
    non-ASCII byte on, the rune loop. *)
Fixpoint EqualFold (s t : string) : bool :=
  match s, t with
  | String.String sr s', String.String tr t' =>
      if 128 <=? Z.lor (byte_val sr) (byte_val tr)
      then foldRunes (runes s) (runes t)
      else if byte_val tr =? byte_val sr then EqualFold s' t'
      else if upper_lower (Z.min (byte_val sr) (byte_val tr))
                          (Z.max (byte_val sr) (byte_val tr))
           then EqualFold s' t'
           else false
  | EmptyString, EmptyString => true
  | _, _ => false
  end.

End EqualFold.

End GoStrings.

(** ** Package valuepath *)

Module valuepath.
Import GoStrings.

(** [partType] indicates the type of the pathPart. *)
Inductive partType : Type :=
| partTypeField
| partTypeElement
| partTypeKey.

Record pathPart : Type := mkPart {
  partType_of : partType;
  index : Z;
  fieldOrKey : string
}.

(** The three struct literals of FromString; a field left out of a Go
    literal holds its zero value.  (Two of the literals spell the first field
    [pathType: pathTypeField]; the struct has [partType] and the constant is
    [partTypeField].) *)
Definition FieldPart (field : string) : pathPart :=
  {| partType_of := partTypeField; index := 0; fieldOrKey := field |}.
Definition ElementPart (idx : Z) : pathPart :=
  {| partType_of := partTypeElement; index := idx; fieldOrKey := EmptyString |}.
Definition KeyPart (mapKey : string) : pathPart :=
  {| partType_of := partTypeKey; index := 0; fieldOrKey := mapKey |}.

(** The struct declares [parts []pathPart], while the methods of Path still
    read and write the parts as strings (Pop returns a string, PushBack
    takes one, String joins them, HasPrefix compares them with strings).
    The Path model is therefore generic in the type of a part; what the
    methods need from it is its zero value and its text. *)
Class Part (A : Type) := {
  part_zero : A;
  part_string : A -> string
}.

#[export] Instance string_Part : Part string :=
  {| part_zero := EmptyString; part_string := fun s => s |}.

#[export] Instance pathPart_Part : Part pathPart :=
  {| part_zero := {| partType_of := partTypeField; index := 0;
                     fieldOrKey := EmptyString |};
     part_string := fieldOrKey |}.

(** The value of a Path: the visible elements of its [parts] slice. *)
Record Path (A : Type) : Type := mkPath { parts : list A }.
Arguments mkPath {A} _.
Arguments parts {A} _.

(** What a call of FromString gives back: [(p, nil)], [(nil, ErrInvalidPath)],
    or a run-time panic. *)
Inductive result (T : Type) : Type :=
| Ok (v : T)
| ErrInvalidPath
| Panic.
Arguments Ok {T} _.
Arguments ErrInvalidPath {T}.
Arguments Panic {T}.

(** *** findElementIndexWithClosingOffset

    [digits_loop rest idxStr cursor] is the [for] loop, with
    [rest = subject[cursor:]]; the two error returns that do not type-check
    ([return nil, ErrInvalidPath] and [return -1. - 1, ErrInvalidPath]) are
    the error result.  The function reads [subject[0]] without a test, which
    panics on the empty string; its one caller passes a string that starts
    with a digit. *)
Fixpoint digits_loop (rest idxStr : string) (cursor : Z) : result (Z * Z) :=
  match rest with
  | EmptyString => ErrInvalidPath
  | String.String nextChar rest' =>
      if IsDigit nextChar then
        digits_loop rest' (idxStr ++ String.String nextChar EmptyString) (cursor + 1)
      else if Ascii.eqb nextChar "]" then
        match Atoi idxStr with
        | Some idx => Ok (idx, cursor)
        | None => ErrInvalidPath
        end
      else ErrInvalidPath
  end.

Definition findElementIndexWithClosingOffset (subject : string)
  : result (Z * Z) :=
  match subject with
  | EmptyString => Panic
  | String.String nextChar rest =>
      digits_loop rest (String.String nextChar EmptyString) 1
  end.

(** *** FromString *)

(** The variables of the scan that live across iterations. *)
Record scan : Type := mkScan {
  cursor : Z;
  leftBracketPos : Z;
  scanned : list pathPart
}.

Inductive step : Type :=
| Next (st : scan)
| Break (ps : list pathPart)
| Return (r : result (Path pathPart)).

Definition lift {T} (o : option T) (k : T -> step) : step :=
  match o with
  | Some v => k v
  | None => Return Panic
  end.

(** One iteration of the [for] loop.  [idxSpecial] is an offset into
    [subject[cursor:]] and the code uses it as an index into [subject]
    itself.  The case for '.' has an empty body and a [switch] without a
    matching case does nothing, so on any byte but '[' the iteration ends
    with every variable as it was. *)
Definition scan_step (subject : string) (st : scan) : step :=
  let subjectLen := len subject in
  lift (slice_from subject (cursor st)) (fun rest =>
    let idxSpecial := IndexAny rest "[." in
    if idxSpecial <? 0 then
      Break (if cursor st <? subjectLen
             then scanned st ++ [FieldPart rest]
             else scanned st)
    else
      lift (byte_at subject idxSpecial) (fun special =>
        if Ascii.eqb special "[" then
          if 0 <? leftBracketPos st then Return ErrInvalidPath
          else
            let cursor1 := idxSpecial + 1 in
            if subjectLen <=? cursor1 then Return ErrInvalidPath
            else
              lift (byte_at subject cursor1) (fun nextChar =>
                if Ascii.eqb nextChar "'" then
                  if (leftBracketPos st <? 0) || (idxSpecial <? leftBracketPos st)
                  then Return ErrInvalidPath
                  else
                    lift (slice subject (leftBracketPos st) idxSpecial) (fun mapKey =>
                      Next {| cursor := idxSpecial + 1;
                              leftBracketPos := -1;
                              scanned := scanned st ++ [KeyPart mapKey] |})
                else if IsDigit nextChar then
                  lift (slice_from subject cursor1) (fun sub =>
                    match findElementIndexWithClosingOffset sub with
                    | Ok (idx, offset) =>
                        Next {| cursor := cursor1 + offset;
                                leftBracketPos := leftBracketPos st;
                                scanned := scanned st ++ [ElementPart idx] |}
                    | ErrInvalidPath => Return ErrInvalidPath
                    | Panic => Return Panic
                    end)
                else Return ErrInvalidPath)
        else Next st)).

(** The loop, run for at most [fuel] iterations; [None] when it is still
    running after that many. *)
Fixpoint scan_loop (fuel : nat) (subject : string) (st : scan)
  : option (result (Path pathPart)) :=
  match fuel with
  | O => None
  | S fuel' =>
      match scan_step subject st with
      | Next st' => scan_loop fuel' subject st'
      | Break ps => Some (Ok (mkPath ps))
      | Return r => Some r
      end
  end.

Definition scan_start : scan :=
  {| cursor := 0; leftBracketPos := -1; scanned := [] |}.

(** The test of the fast path is written [!strings.IndexAny(subject, "[]")];
    by the comment above it, it asks whether the subject has no square
    bracket, that is, whether IndexAny found none. *)
Definition no_brackets (subject : string) : bool :=
  IndexAny subject "[]" <? 0.

Definition FromString_fuel (fuel : nat) (subject : string)
  : option (result (Path pathPart)) :=
  if no_brackets subject then
    Some (Ok (mkPath (map FieldPart (Split subject "."))))
  else scan_loop fuel subject scan_start.

(** FromString returns [r]: some number of iterations is enough. *)
Definition FromString_returns (subject : string) (r : result (Path pathPart))
  : Prop :=
  exists fuel, FromString_fuel fuel subject = Some r.

(** FromString never returns: the loop is still running after any number of
    iterations. *)
Definition FromString_diverges (subject : string) : Prop :=
  forall fuel, FromString_fuel fuel subject = None.

(** *** The read-only methods, on the value of a Path *)

Section Methods.
Context {A : Type} `{Part A}.

(** [String]: the parts, as text, joined by dots. *)
Definition String (p : Path A) : string :=
  Join (map part_string (parts p)) ".".

Definition Size (p : Path A) : Z := Z.of_nat (length (parts p)).

(** The [range] loop of HasPrefix and HasPrefixFold over [subjectSplit],
    at index [i]; [None] is the panic of [p.parts[i]] out of range. *)
Fixpoint range_match (eq : string -> string -> bool) (ps : list A)
    (i : nat) (subjectSplit : list string) : option bool :=
  match subjectSplit with
  | [] => Some true
  | s :: rest =>
      match ps !! i with
      | None => None
      | Some part =>
          if eq (part_string part) s
          then range_match eq ps (S i) rest
          else Some false
      end
  end.

Definition has_prefix (eq : string -> string -> bool) (p : Path A)
    (subject : string) : option bool :=
  let subjectSplit := Split subject "." in
  if (length (parts p) <? length subjectSplit)%nat then Some false
  else range_match eq (parts p) 0 subjectSplit.

Definition HasPrefix : Path A -> string -> option bool :=
  has_prefix String.eqb.

Definition HasPrefixFold (foldOrbit : Z -> Z -> bool)
  : Path A -> string -> option bool :=
  has_prefix (EqualFold foldOrbit).

(** [Empty]: there are no parts. *)
Definition Empty (p : Path A) : bool := Size p =? 0.

(** [At], [Front] and [Back] return a part; [None] is the panic of
    [p.parts[i]] out of range, behind the guard each of them has. *)
Definition At (p : Path A) (index : Z) : option A :=
  if (index <? 0) || (Size p =? 0) || (Size p - 1 <? index)
  then Some part_zero
  else parts p !! Z.to_nat index.

Definition Front (p : Path A) : option A :=
  if Size p =? 0 then Some part_zero else parts p !! 0%nat.

Definition Back (p : Path A) : option A :=
  if Size p =? 0 then Some part_zero
  else if Size p - 1 <? 0 then None
  else parts p !! Z.to_nat (Size p - 1).

End Methods.

(** *** Slices, Path objects and the methods that write

    A Go slice is a window [(array, offset, len, cap)] on a backing array,
    and two slices may share one array.  The store holds the backing arrays
    and the Path structs; a [*Path] is an index into [objects]. *)

Record slice : Type := mkSlice {
  arr : nat;
  off : nat;
  slen : nat;
  scap : nat
}.

Record store (A : Type) : Type := mkStore {
  arrays : list (list A);
  objects : list slice
}.
Arguments mkStore {A} _ _.
Arguments arrays {A} _.
Arguments objects {A} _.

Section Store.
Context {A : Type} `{Part A}.

(** The capacity the runtime picks when append has to move the slice to a
    larger array, from the old capacity and the length needed.  The
    model relies on no property of it: [append] takes at least the
    length needed. *)
Variable growslice : nat -> nat -> nat.

Definition deref (st : store A) (p : nat) : option slice :=
  objects st !! p.

Definition backing (st : store A) (sl : slice) : list A :=
  default [] (arrays st !! arr sl).

(** The elements a slice shows. *)
Definition elems (st : store A) (sl : slice) : list A :=
  take (slen sl) (drop (off sl) (backing st sl)).

(** The value of the Path that [p] points to. *)
Definition load (st : store A) (p : nat) : option (Path A) :=
  (fun sl => mkPath (elems st sl)) <$> deref st p.

Definition set_parts (st : store A) (p : nat) (sl : slice) : store A :=
  mkStore (arrays st) (<[p := sl]> (objects st)).

(** [&Path{parts}] for a slice [parts] that was just built and holds
    [ps], with [spare] unused slots after them. *)
Definition new_path (st : store A) (ps : list A) (spare : nat)
  : nat * store A :=
  (length (objects st),
   mkStore (arrays st ++ [ps ++ replicate spare part_zero])
           (objects st ++ [mkSlice (length (arrays st)) 0 (length ps)
                                   (length ps + spare)])).

(** [append(sl, part)]: in place when the capacity allows, else into a
    new array. *)
Definition append (st : store A) (sl : slice) (part : A)
  : option (slice * store A) :=
  if (slen sl <? scap sl)%nat then
    a ← arrays st !! arr sl;
    if (off sl + slen sl <? length a)%nat then
      Some (mkSlice (arr sl) (off sl) (S (slen sl)) (scap sl),
            mkStore (<[arr sl := <[(off sl + slen sl)%nat := part]> a]> (arrays st))
                    (objects st))
    else None
  else
    let newcap := Nat.max (S (slen sl)) (growslice (scap sl) (S (slen sl))) in
    Some (mkSlice (length (arrays st)) 0 (S (slen sl)) newcap,
          mkStore (arrays st ++ [elems st sl ++ part ::
                                 replicate (newcap - S (slen sl)) part_zero])
                  (objects st)).

Definition Pop (st : store A) (p : nat) : option (A * store A) :=
  sl ← deref st p;
  if (0 <? slen sl)%nat then
    part ← backing st sl !! (off sl + slen sl - 1)%nat;
    Some (part, set_parts st p
                  (mkSlice (arr sl) (off sl) (slen sl - 1) (scap sl)))
  else Some (part_zero, st).

Definition PopFront (st : store A) (p : nat) : option (A * store A) :=
  sl ← deref st p;
  if (0 <? slen sl)%nat then
    part ← backing st sl !! off sl;
    Some (part, set_parts st p
                  (mkSlice (arr sl) (S (off sl)) (slen sl - 1) (scap sl - 1)))
  else Some (part_zero, st).

Definition PushBack (st : store A) (p : nat) (part : A)
  : option (unit * store A) :=
  sl ← deref st p;
  '(sl', st') ← append st sl part;
  Some (tt, set_parts st' p sl').

(** [&Path{p.parts}]: a new struct holding the same slice. *)
Definition Copy (st : store A) (p : nat) : option (nat * store A) :=
  sl ← deref st p;
  Some (length (objects st), mkStore (arrays st) (objects st ++ [sl])).

(** [None] for the pointer is [nil]. *)
Definition CopyAt (st : store A) (p : nat) (index : Z)
  : option (option nat * store A) :=
  sl ← deref st p;
  if (index <? 0) || (slen sl =? 0)%nat || (Z.of_nat (slen sl) - 1 <? index)
  then Some (None, st)
  else
    Some (Some (length (objects st)),
          mkStore (arrays st)
                  (objects st ++ [mkSlice (arr sl) (off sl)
                                          (Z.to_nat (index + 1)) (scap sl)])).

(** Every slice of the store lies within its array. *)
Definition slice_ok (st : store A) (sl : slice) : Prop :=
  (slen sl <= scap sl)%nat /\
  ((0 < scap sl)%nat ->
   exists a, arrays st !! arr sl = Some a /\ (off sl + scap sl <= length a)%nat).

Definition wf (st : store A) : Prop :=
  forall p sl, deref st p = Some sl -> slice_ok st sl.

End Store.

Definition empty_store {A : Type} : store A := mkStore [] [].

End valuepath.

Import GoStrings valuepath.

(** ** The vocabulary of the statements *)

(** An identifier of the path notation: one or more bytes, none of them a
    dot, a square bracket or a single quote. *)
Definition identifier (f : string) : bool :=
  negb (String.eqb f EmptyString) && (IndexAny f ".[]'" <? 0).

Definition free_of (chars s : string) : bool :=
  forallb (fun c => negb (contains_byte chars c)) (list_ascii_of_string s).

(** FromString gives the error and no Path. *)
Definition fails_with_InvalidPath (subject : string) : Prop :=
  FromString_returns subject ErrInvalidPath /\
  forall p, ~ FromString_returns subject (Ok p).

(** FromString gives the Path whose parts are these fields, and no error. *)
Definition parses_to_fields (subject : string) (fields : list string) : Prop :=
  FromString_returns subject (Ok (mkPath (map FieldPart fields))) /\
  ~ FromString_returns subject ErrInvalidPath.

(** What the two prefix tests decide, in the words of the description: the
    candidates, compared one by one from the front with the texts of the
    parts; more candidates than parts is no match. *)
Fixpoint fronts_match (eq : string -> string -> bool)
    (texts candidates : list string) {struct candidates} : bool :=
  match candidates, texts with
  | [], _ => true
  | c :: cs, t :: ts => eq t c && fronts_match eq ts cs
  | _ :: _, [] => false
  end.

(** The number of occurrences of a byte in a string. *)
Fixpoint count_byte (c : ascii) (s : string) : nat :=
  match s with
  | EmptyString => 0%nat
  | String.String d s' => ((if Ascii.eqb d c then 1 else 0) + count_byte c s')%nat
  end.

(** A part that is a Field or an Element whose index is a non-negative [int]. *)
Definition field_or_element (part : pathPart) : Prop :=
  partType_of part <> partTypeKey /\ 0 <= index part <= maxInt.

(** What holds of the variables of the scan at the top of every iteration. *)
Definition scan_inv (subject : string) (st : scan) : Prop :=
  0 <= cursor st <= len subject /\
  leftBracketPos st = -1 /\
  Forall field_or_element (scanned st).

(** No backing array of [st] is lost or shortened in [st']. *)
Definition arrays_kept {A : Type} (st st' : store A) : Prop :=
  forall i a, arrays st !! i = Some a ->
    exists a', arrays st' !! i = Some a' /\ (length a <= length a')%nat.

(** ** Facts about the library model *)

(** IndexAny finds nothing exactly when no byte of the string is in the set. *)
Lemma IndexAny_from_none (s chars : string) (i : Z) :
  0 <= i ->
  (IndexAny_from i s chars <? 0) = forallb (fun c => negb (contains_byte chars c))
                                           (list_ascii_of_string s).
Proof.
  revert i. induction s as [|c s IH]; intros i Hi; simpl.
  - done.
  - destruct (contains_byte chars c); simpl.
    + apply Z.ltb_ge. lia.
    + apply IH. lia.
Qed.

Lemma Split_not_nil (s : string) (sep : ascii) : Split s sep <> [].
Proof.
  destruct s as [|c s]; simpl; [done|].
  destruct (Ascii.eqb c sep); [done|]. by destruct (Split s sep).
Qed.

(** Joining the fields of a split gives the string back. *)
Lemma Join_Split (s : string) (sep : ascii) :
  Join (Split s sep) (String.String sep EmptyString) = s.
Proof.
  induction s as [|c s IH]; simpl; [done|].
  destruct (Ascii.eqb_spec c sep) as [->|Hne].
  - pose proof (Split_not_nil s sep) as Hnil.
    destruct (Split s sep) as [|f fs]; [done|].
    simpl in *. by rewrite IH.
  - pose proof (Split_not_nil s sep) as Hnil.
    destruct (Split s sep) as [|f fs]; [done|].
    destruct fs as [|g gs]; simpl in *; by rewrite <- IH.
Qed.

(** ** Facts about the scan of FromString *)

(** An iteration that changes nothing is repeated for ever. *)
Lemma scan_loop_stuck (subject : string) (st : scan) :
  scan_step subject st = Next st ->
  forall fuel, scan_loop fuel subject st = None.
Proof.
  intros Hstep fuel. induction fuel as [|fuel IH]; simpl; [done|].
  by rewrite Hstep.
Qed.

(** More iterations do not change a result already reached. *)
Lemma scan_loop_mono (subject : string) (fuel : nat) :
  forall st r k,
    scan_loop fuel subject st = Some r ->
    scan_loop (fuel + k) subject st = Some r.
Proof.
  induction fuel as [|fuel IH]; intros st r k; simpl; [done|].
  destruct (scan_step subject st); auto.
Qed.

Lemma FromString_fuel_mono (subject : string) (fuel k : nat) r :
  FromString_fuel fuel subject = Some r ->
  FromString_fuel (fuel + k) subject = Some r.
Proof.
  unfold FromString_fuel. destruct (no_brackets subject); [done|].
  apply scan_loop_mono.
Qed.

(** FromString returns at most one result. *)
Lemma FromString_returns_unique (subject : string) r1 r2 :
  FromString_returns subject r1 -> FromString_returns subject r2 -> r1 = r2.
Proof.
  intros [f1 H1] [f2 H2].
  apply (FromString_fuel_mono _ _ f2) in H1.
  apply (FromString_fuel_mono _ _ f1) in H2.
  rewrite (Nat.add_comm f2 f1) in H2. congruence.
Qed.

Lemma FromString_diverges_no_result (subject : string) r :
  FromString_diverges subject -> ~ FromString_returns subject r.
Proof. intros Hdiv [fuel Hret]. by rewrite Hdiv in Hret. Qed.

(** The fast path: a subject without square brackets is split on the dots,
    one Field part for each piece. *)
Lemma FromString_fast_path (subject : string) :
  no_brackets subject = true ->
  FromString_returns subject (Ok (mkPath (map FieldPart (Split subject ".")))).
Proof.
  intros Hnb. exists 0%nat. unfold FromString_fuel. by rewrite Hnb.
Qed.

(** A subject with a square bracket whose first '[' or '.' is a dot: the
    iteration for the dot leaves the cursor where it was. *)
Lemma FromString_dot_first_diverges (subject : string) :
  no_brackets subject = false ->
  byte_at subject (IndexAny subject "[.") = Some "."%char ->
  FromString_diverges subject.
Proof.
  intros Hnb Hdot fuel. unfold FromString_fuel. rewrite Hnb.
  apply scan_loop_stuck. unfold scan_step, scan_start; simpl.
  unfold slice_from; simpl.
  assert (Hlen : (len subject <? 0) = false).
  { apply Z.ltb_ge. unfold len. lia. }
  rewrite Hlen; simpl.
  destruct (IndexAny subject "[." <? 0) eqn:Hneg.
  { unfold byte_at in Hdot. by rewrite Hneg in Hdot. }
  by rewrite Hdot.
Qed.

(** ** Simple dotted strings *)

Lemma IndexAny_free_of (s chars : string) :
  (IndexAny s chars <? 0) = free_of chars s.
Proof. by apply IndexAny_from_none. Qed.

Lemma free_of_app (chars s t : string) :
  free_of chars (s ++ t) = free_of chars s && free_of chars t.
Proof.
  unfold free_of. induction s as [|c s IH]; simpl; [done|].
  by rewrite IH, andb_assoc.
Qed.

Lemma identifier_free (f : string) :
  identifier f = true -> free_of "[]" f = true /\ free_of "." f = true.
Proof.
  unfold identifier. rewrite IndexAny_free_of.
  intros [_ Hfree]%andb_prop. revert Hfree. unfold free_of.
  induction f as [|c f IH]; simpl; [done|].
  intros [Hc Hf]%andb_prop. destruct (IH Hf) as [IH1 IH2].
  split; apply andb_true_intro; (split; [|assumption]);
    destruct (Ascii.eqb c "."), (Ascii.eqb c "["), (Ascii.eqb c "]");
    simpl in *; done.
Qed.

Lemma Join_free_of_brackets (ids : list string) :
  forallb identifier ids = true -> free_of "[]" (Join ids ".") = true.
Proof.
  induction ids as [|f ids IH]; simpl; [done|].
  intros [Hf Hids]%andb_prop. destruct (identifier_free f Hf) as [Hb _].
  destruct ids as [|g ids]; [done|].
  rewrite !free_of_app, Hb, (IH Hids). done.
Qed.

Lemma Split_no_dot (f : string) :
  free_of "." f = true -> Split f "." = [f].
Proof.
  unfold free_of. induction f as [|c f IH]; simpl; [done|].
  rewrite orb_false_r. intros [Hc Hf]%andb_prop.
  destruct (Ascii.eqb c "."); [done|]. by rewrite (IH Hf).
Qed.

Lemma Split_field_dot (f rest : string) :
  free_of "." f = true ->
  Split (f ++ "." ++ rest) "." = f :: Split rest ".".
Proof.
  unfold free_of. induction f as [|c f IH]; simpl; [done|].
  rewrite orb_false_r. intros [Hc Hf]%andb_prop.
  destruct (Ascii.eqb c "."); [done|].
  change (Split (f ++ String.String "." rest) ".")
    with (Split (f ++ "." ++ rest) ".").
  by rewrite (IH Hf).
Qed.

(** Splitting the dotted form of a list of identifiers gives the list back. *)
Lemma Split_Join_identifiers (ids : list string) :
  ids <> [] -> forallb identifier ids = true ->
  Split (Join ids ".") "." = ids.
Proof.
  induction ids as [|f ids IH]; [done|]. intros _. simpl.
  intros [Hf Hids]%andb_prop. destruct (identifier_free f Hf) as [_ Hd].
  destruct ids as [|g ids]; [by apply Split_no_dot|].
  rewrite Split_field_dot by done. by rewrite IH.
Qed.

Lemma String_of_fields (fields : list string) :
  String (mkPath (map FieldPart fields)) = Join fields ".".
Proof.
  unfold String; simpl. rewrite map_map; simpl. by rewrite map_id.
Qed.

(** ** The claims about FromString *)

(** C1 (seen from the code). The path of the package documentation,
    "Publisher.Addresses[0].City", has a square bracket, so FromString scans
    it; the first special byte is the dot after "Publisher", the iteration for
    a dot changes no variable, and the loop never ends: no segment sequence is
    ever returned for it. *)
Theorem C1_documented_element_path_never_returns :
  FromString_diverges "Publisher.Addresses[0].City" /\
  forall r, ~ FromString_returns "Publisher.Addresses[0].City" r.
Proof.
  assert (Hdiv : FromString_diverges "Publisher.Addresses[0].City").
  { apply FromString_dot_first_diverges; vm_compute; reflexivity. }
  split; [exact Hdiv|]. intros r. by apply FromString_diverges_no_result.
Qed.

(** C2 (seen from the code). On "Books['Gone With the Wind']" FromString
    returns ErrInvalidPath: at the quote after the bracket it tests
    leftBracketPos, which still holds -1, so no Key part is ever made. *)
Theorem C2_documented_key_path_is_rejected :
  FromString_returns "Books['Gone With the Wind']" ErrInvalidPath /\
  forall p, ~ FromString_returns "Books['Gone With the Wind']" (Ok p).
Proof.
  assert (Hret : FromString_returns "Books['Gone With the Wind']" ErrInvalidPath).
  { exists 1%nat. vm_compute. reflexivity. }
  split; [exact Hret|]. intros p Hok.
  by pose proof (FromString_returns_unique _ _ _ Hret Hok).
Qed.

Lemma fails_by_computation (subject : string) (fuel : nat) :
  FromString_fuel fuel subject = Some ErrInvalidPath ->
  fails_with_InvalidPath subject.
Proof.
  intros Hrun.
  assert (Hret : FromString_returns subject ErrInvalidPath) by by exists fuel.
  split; [exact Hret|]. intros p Hok.
  by pose proof (FromString_returns_unique _ _ _ Hret Hok).
Qed.

Lemma fields_by_fast_path (subject : string) :
  no_brackets subject = true ->
  parses_to_fields subject (Split subject ".").
Proof.
  intros Hnb. pose proof (FromString_fast_path subject Hnb) as Hret.
  split; [exact Hret|]. intros Herr.
  by pose proof (FromString_returns_unique _ _ _ Hret Herr).
Qed.

(** C3 (seen from the code). The five subjects with a malformed accessor
    fail with ErrInvalidPath and give no Path, as the claim says.  The three
    subjects with a misplaced dot, "A..B", ".A" and "A.", do not: they have no
    square bracket, so the fast path splits them on the dots and emits every
    piece as a Field, the empty ones too, without the test on what is left
    that the scan makes before it emits a Field ([cursor < subjectLen]).  No
    error is returned for them, although the doc comment of FromString
    promises ErrInvalidPath for an invalid path. *)
Theorem C3_malformed_accessors_fail_misplaced_dots_pass :
  Forall fails_with_InvalidPath ["A["; "A[1"; "A[x]"; "A['b"; "A[['0']]"] /\
  parses_to_fields "A..B" ["A"; ""; "B"] /\
  parses_to_fields ".A" [""; "A"] /\
  parses_to_fields "A." ["A"; ""].
Proof.
  split.
  - repeat constructor; apply (fails_by_computation _ 1); vm_compute; reflexivity.
  - split; [|split].
    + exact (fields_by_fast_path "A..B" eq_refl).
    + exact (fields_by_fast_path ".A" eq_refl).
    + exact (fields_by_fast_path "A." eq_refl).
Qed.

(** C4 (seen from the code). For the empty string FromString returns no
    error, but not the empty Path either: the empty string has no square
    bracket, Split gives one empty piece for it, and the fast path emits that
    piece as a Field without a test.  The Path has one part, the Field with
    the empty name, and size 1; no run returns a Path of size 0. *)
Theorem C4_empty_string_gives_one_empty_field :
  (exists p,
     FromString_returns "" (Ok p) /\
     parts p = [FieldPart ""] /\
     Size p = 1) /\
  ~ FromString_returns "" ErrInvalidPath /\
  ~ (exists p, FromString_returns "" (Ok p) /\ Size p = 0).
Proof.
  destruct (fields_by_fast_path "" eq_refl) as [Hone Hno].
  split; [|split].
  - exists (mkPath [FieldPart ""]). by repeat split.
  - exact Hno.
  - intros (p & Hret & Hsize).
    pose proof (FromString_returns_unique _ _ _ Hret Hone) as Heq.
    injection Heq as ->. discriminate Hsize.
Qed.

(** C5 (seen from the code). FromString is not total: on the example of its
    own doc comment, "Author.Publishers.Addresses[0].City", the scan stops
    advancing at the first dot and is still running after any number of
    iterations. *)
Theorem C5_scan_does_not_terminate_on_doc_example :
  FromString_diverges "Author.Publishers.Addresses[0].City" /\
  forall r, ~ FromString_returns "Author.Publishers.Addresses[0].City" r.
Proof.
  assert (Hdiv : FromString_diverges "Author.Publishers.Addresses[0].City").
  { apply FromString_dot_first_diverges; vm_compute; reflexivity. }
  split; [exact Hdiv|]. intros r. by apply FromString_diverges_no_result.
Qed.

(** C6. For a non-empty list of identifiers, FromString of their dotted form
    succeeds, the Path holds one Field part for each identifier, in order, and
    String gives the dotted form back. *)
Theorem C6_simple_dotted_round_trip (ids : list string) :
  ids <> [] ->
  forallb identifier ids = true ->
  exists p,
    FromString_returns (Join ids ".") (Ok p) /\
    parts p = map FieldPart ids /\
    String p = Join ids ".".
Proof.
  intros Hne Hids.
  assert (Hnb : no_brackets (Join ids ".") = true).
  { unfold no_brackets. rewrite IndexAny_free_of.
    by apply Join_free_of_brackets. }
  exists (mkPath (map FieldPart ids)). split; [|split].
  - pose proof (FromString_fast_path _ Hnb) as Hret.
    by rewrite Split_Join_identifiers in Hret.
  - done.
  - apply String_of_fields.
Qed.

Lemma C6_simple_dotted_round_trip_witness :
  exists p,
    FromString_returns "Author.Publisher.Name" (Ok p) /\
    parts p = map FieldPart ["Author"; "Publisher"; "Name"] /\
    String p = "Author.Publisher.Name".
Proof.
  apply (C6_simple_dotted_round_trip ["Author"; "Publisher"; "Name"]).
  - discriminate.
  - reflexivity.
Defined.

(** ** Prefix matching *)

Lemma fronts_match_too_long eq (texts candidates : list string) :
  (length texts < length candidates)%nat ->
  fronts_match eq texts candidates = false.
Proof.
  revert texts. induction candidates as [|c cs IH]; intros texts Hlen; simpl in *.
  - lia.
  - destruct texts as [|t ts]; [done|]. simpl in *.
    rewrite IH by lia. apply andb_false_r.
Qed.

Section PrefixFacts.
Context {A : Type} `{Part A}.

(** The loop never indexes the parts out of range once the guard on the
    lengths has passed, and it computes [fronts_match]. *)
Lemma range_match_fronts eq (ps : list A) (cs : list string) (i : nat) :
  (i + length cs <= length ps)%nat ->
  range_match eq ps i cs
  = Some (fronts_match eq (map part_string (drop i ps)) cs).
Proof.
  revert i. induction cs as [|c cs IH]; intros i Hlen; simpl in *; [done|].
  destruct (lookup_lt_is_Some_2 ps i) as [part Hpart]; [lia|].
  rewrite Hpart, (drop_S _ _ _ Hpart); simpl.
  destruct (eq (part_string part) c); simpl; [|done].
  apply IH. lia.
Qed.

Lemma has_prefix_fronts eq (p : Path A) (subject : string) :
  has_prefix eq p subject
  = Some (fronts_match eq (map part_string (parts p)) (Split subject ".")).
Proof.
  unfold has_prefix.
  destruct (Nat.ltb_spec (length (parts p)) (length (Split subject "."))) as [Hlt|Hge].
  - rewrite fronts_match_too_long; [done|]. by rewrite length_map.
  - rewrite range_match_fronts by (simpl; lia). by rewrite drop_0.
Qed.

End PrefixFacts.

(** EqualFold holds between a string and itself, whatever its bytes. *)
Lemma foldRunes_refl fo (rs : list Z) : foldRunes fo rs rs = true.
Proof.
  induction rs as [|r rs IH]; simpl; [done|].
  unfold foldRune. by rewrite Z.eqb_refl.
Qed.

Lemma EqualFold_refl fo (s : string) : EqualFold fo s s = true.
Proof.
  induction s as [|c s IH]; [done|].
  cbn [EqualFold].
  destruct (128 <=? Z.lor (byte_val c) (byte_val c)).
  - apply foldRunes_refl.
  - by rewrite Z.eqb_refl.
Qed.

Lemma fronts_match_eqb_fold fo (texts candidates : list string) :
  fronts_match String.eqb texts candidates = true ->
  fronts_match (EqualFold fo) texts candidates = true.
Proof.
  revert texts. induction candidates as [|c cs IH]; intros texts; simpl; [done|].
  destruct texts as [|t ts]; [done|].
  intros [Heq Hrest]%andb_prop. apply String.eqb_eq in Heq as ->.
  by rewrite EqualFold_refl, IH.
Qed.

(** C8. HasPrefix and HasPrefixFold split the subject on the dots and compare
    the pieces from the front with the parts, by string equality and by
    EqualFold; both are false when there are more pieces than parts; on the
    Path of "A.B", "a" matches only under folding, "A" and "A.B" match under
    both, "A.B.C" and "B" under neither. *)
Theorem C8_prefix_matching :
  (forall (p : Path pathPart) (subject : string) fo,
      HasPrefix p subject
      = Some (fronts_match String.eqb (map fieldOrKey (parts p)) (Split subject "."))
      /\ HasPrefixFold fo p subject
         = Some (fronts_match (EqualFold fo) (map fieldOrKey (parts p))
                              (Split subject "."))
      /\ ((length (parts p) < length (Split subject "."))%nat ->
          HasPrefix p subject = Some false /\
          HasPrefixFold fo p subject = Some false)) /\
  exists p,
    FromString_returns "A.B" (Ok p) /\
    forall fo,
      HasPrefix p "a" = Some false /\ HasPrefixFold fo p "a" = Some true /\
      HasPrefix p "A" = Some true /\ HasPrefixFold fo p "A" = Some true /\
      HasPrefix p "A.B" = Some true /\ HasPrefixFold fo p "A.B" = Some true /\
      HasPrefix p "A.B.C" = Some false /\ HasPrefixFold fo p "A.B.C" = Some false /\
      HasPrefix p "B" = Some false /\ HasPrefixFold fo p "B" = Some false.
Proof.
  split.
  - intros p subject fo. unfold HasPrefix, HasPrefixFold.
    rewrite !has_prefix_fronts. repeat split.
    + rewrite fronts_match_too_long; [done|]. by rewrite length_map.
    + rewrite fronts_match_too_long; [done|]. by rewrite length_map.
  - exists (mkPath (map FieldPart ["A"; "B"])). split.
    + exact (FromString_fast_path "A.B" eq_refl).
    + intros fo. repeat split; vm_compute; reflexivity.
Qed.

Lemma C8_prefix_matching_witness :
  HasPrefix (mkPath [FieldPart "A"; FieldPart "B"]) "A.B.C" = Some false /\
  HasPrefixFold (fun _ _ => true) (mkPath [FieldPart "A"; FieldPart "B"]) "A.B.C"
  = Some false.
Proof.
  destruct C8_prefix_matching as [Hgen _].
  destruct (Hgen (mkPath [FieldPart "A"; FieldPart "B"]) "A.B.C" (fun _ _ => true))
    as (_ & _ & Hlong).
  apply Hlong. vm_compute. lia.
Defined.

(** C10. Whenever HasPrefix holds, so does HasPrefixFold: the guard on the
    lengths and the split are the same, and two equal strings are equal under
    folding. *)
Theorem C10_HasPrefix_implies_HasPrefixFold
    {A : Type} `{Part A} fo (p : Path A) (subject : string) :
  HasPrefix p subject = Some true ->
  HasPrefixFold fo p subject = Some true.
Proof.
  unfold HasPrefix, HasPrefixFold. rewrite !has_prefix_fronts.
  intros [= Hmatch]. by rewrite fronts_match_eqb_fold.
Qed.

Lemma C10_HasPrefix_implies_HasPrefixFold_witness :
  HasPrefixFold (fun _ _ => false) (mkPath [FieldPart "A"; FieldPart "B"]) "A.B"
  = Some true.
Proof.
  apply (C10_HasPrefix_implies_HasPrefixFold (fun _ _ => false)
           (mkPath [FieldPart "A"; FieldPart "B"]) "A.B").
  reflexivity.
Defined.

(** ** Slices and the store *)

Section StoreFacts.
Context {A : Type} `{Part A}.
Variable growslice : nat -> nat -> nat.

Implicit Types (st : store A) (sl : slice) (p q : nat) (l : list A).

(** A well-placed slice shows as many elements as its length says. *)
Lemma elems_length st sl :
  slice_ok st sl -> length (elems st sl) = slen sl.
Proof.
  intros [Hlen Harr]. unfold elems.
  destruct (decide (scap sl = 0)%nat) as [Hz|Hnz].
  - assert (slen sl = 0)%nat as -> by lia. done.
  - destruct Harr as (a & Ha & Hfit); [lia|].
    unfold backing. rewrite Ha; simpl.
    rewrite length_take, length_drop. lia.
Qed.

Lemma elems_lookup st sl (i : nat) :
  (i < slen sl)%nat ->
  elems st sl !! i = backing st sl !! (off sl + i)%nat.
Proof.
  intros Hi. unfold elems.
  by rewrite lookup_take_lt, lookup_drop.
Qed.

Lemma load_elems st p l :
  load st p = Some (mkPath l) ->
  exists sl, deref st p = Some sl /\ elems st sl = l.
Proof.
  unfold load. destruct (deref st p) as [sl|]; simpl; [|done].
  intros [= <-]. by exists sl.
Qed.

Lemma deref_set_parts st p sl sl0 :
  deref st p = Some sl0 -> deref (set_parts st p sl) p = Some sl.
Proof.
  unfold deref, set_parts; simpl. intros Hp.
  apply list_lookup_insert_eq. by eapply lookup_lt_Some.
Qed.

Lemma deref_set_parts_ne st p q sl :
  p <> q -> deref (set_parts st p sl) q = deref st q.
Proof.
  unfold deref, set_parts; simpl. intros Hne.
  by apply list_lookup_insert_ne.
Qed.

(** *** Pop and PopFront *)

Lemma Pop_empty st p :
  wf st -> load st p = Some (mkPath []) ->
  Pop st p = Some (part_zero, st).
Proof.
  intros Hwf (sl & Hsl & Hel)%load_elems.
  pose proof (elems_length st sl (Hwf p sl Hsl)) as Hlen.
  rewrite Hel in Hlen; simpl in Hlen.
  unfold Pop. rewrite Hsl; simpl. by rewrite <- Hlen.
Qed.

Lemma PopFront_empty st p :
  wf st -> load st p = Some (mkPath []) ->
  PopFront st p = Some (part_zero, st).
Proof.
  intros Hwf (sl & Hsl & Hel)%load_elems.
  pose proof (elems_length st sl (Hwf p sl Hsl)) as Hlen.
  rewrite Hel in Hlen; simpl in Hlen.
  unfold PopFront. rewrite Hsl; simpl. by rewrite <- Hlen.
Qed.

Lemma Pop_last st p l (x : A) :
  wf st -> load st p = Some (mkPath (l ++ [x])) ->
  exists st', Pop st p = Some (x, st') /\ load st' p = Some (mkPath l).
Proof.
  intros Hwf (sl & Hsl & Hel)%load_elems.
  pose proof (elems_length st sl (Hwf p sl Hsl)) as Hlen.
  rewrite Hel, length_app in Hlen; simpl in Hlen.
  assert (Hx : backing st sl !! (off sl + slen sl - 1)%nat = Some x).
  { replace (off sl + slen sl - 1)%nat with (off sl + length l)%nat by lia.
    rewrite <- elems_lookup by lia. rewrite Hel.
    by rewrite list_lookup_middle. }
  eexists. unfold Pop. rewrite Hsl; simpl.
  destruct (Nat.ltb_spec 0 (slen sl)) as [_|?]; [|lia].
  rewrite Hx; simpl. split; [done|].
  unfold load. erewrite deref_set_parts by done. simpl. f_equal. f_equal.
  unfold elems, backing in *; simpl.
  replace (slen sl - 1)%nat with (Nat.min (length l) (slen sl)) by lia.
  rewrite <- take_take, Hel. apply take_app_length.
Qed.

Lemma PopFront_first st p l (x : A) :
  wf st -> load st p = Some (mkPath (x :: l)) ->
  exists st', PopFront st p = Some (x, st') /\ load st' p = Some (mkPath l).
Proof.
  intros Hwf (sl & Hsl & Hel)%load_elems.
  pose proof (elems_length st sl (Hwf p sl Hsl)) as Hlen.
  rewrite Hel in Hlen; simpl in Hlen.
  assert (Hx : backing st sl !! off sl = Some x).
  { pose proof (elems_lookup st sl 0) as Hfirst.
    rewrite Nat.add_0_r, Hel in Hfirst. symmetry. apply Hfirst. lia. }
  eexists. unfold PopFront. rewrite Hsl; simpl.
  destruct (Nat.ltb_spec 0 (slen sl)) as [_|?]; [|lia].
  rewrite Hx; simpl. split; [done|].
  unfold load. erewrite deref_set_parts by done. simpl. f_equal. f_equal.
  unfold elems, backing in *; simpl.
  rewrite (drop_S _ _ _ Hx) in Hel.
  destruct (slen sl) as [|n]; [lia|]. simpl in Hel.
  injection Hel as Hel. by replace (S n - 1)%nat with n by lia.
Qed.

(** *** The invariant of the store *)

Lemma arrays_kept_same st st' :
  arrays st' = arrays st -> arrays_kept st st'.
Proof. intros Heq i a Ha. exists a. by rewrite Heq. Qed.

Lemma slice_ok_kept st st' sl :
  arrays_kept st st' -> slice_ok st sl -> slice_ok st' sl.
Proof.
  intros Hkept [Hlen Harr]. split; [done|]. intros Hcap.
  destruct (Harr Hcap) as (a & Ha & Hfit).
  destruct (Hkept _ _ Ha) as (a' & Ha' & Hle).
  exists a'. split; [done|lia].
Qed.

Lemma wf_update st st' :
  wf st -> arrays_kept st st' ->
  (forall q sl, deref st' q = Some sl ->
     deref st q = Some sl \/ slice_ok st' sl) ->
  wf st'.
Proof.
  intros Hwf Hkept Hobj q sl Hq.
  destruct (Hobj q sl Hq) as [Hold|Hnew]; [|done].
  eapply slice_ok_kept; [done|]. by eapply Hwf.
Qed.

Lemma deref_set_parts_cases st p sl q sl' :
  deref (set_parts st p sl) q = Some sl' ->
  deref st q = Some sl' \/ sl' = sl.
Proof.
  unfold deref, set_parts; simpl.
  intros [(_ & <- & _)|[_ Hq]]%list_lookup_insert_Some; [by right|by left].
Qed.

Lemma deref_snoc_cases (st : store A) sl q sl' :
  (objects st ++ [sl]) !! q = Some sl' ->
  deref st q = Some sl' \/ sl' = sl.
Proof.
  intros [[_ Hq]|[_ <-]]%lookup_snoc_Some; [by left|by right].
Qed.

Lemma wf_empty_store : wf (@empty_store A).
Proof. intros p sl Hp. unfold deref in Hp; simpl in Hp. done. Qed.

Lemma wf_new_path st l (spare : nat) :
  wf st -> wf (new_path st l spare).2.
Proof.
  intros Hwf. apply (wf_update st); [done| |].
  - intros i a Ha. exists a. split; [|done]. simpl.
    rewrite lookup_app_l; [done|]. by eapply lookup_lt_Some.
  - intros q sl [Hq| ->]%deref_snoc_cases; [by left|right].
    split; simpl; [lia|]. intros _. eexists. split.
    + by rewrite list_lookup_middle.
    + rewrite length_app, length_replicate. lia.
Qed.

Lemma wf_Pop st p (x : A) st' :
  wf st -> Pop st p = Some (x, st') -> wf st'.
Proof.
  intros Hwf. unfold Pop.
  destruct (deref st p) as [sl|] eqn:Hsl; simpl; [|done].
  destruct (0 <? slen sl)%nat; [|by intros [= _ <-]].
  destruct (backing st sl !! _); simpl; [|done]. intros [= _ <-].
  apply (wf_update st); [done|by apply arrays_kept_same|].
  intros q sl' [Hq| ->]%deref_set_parts_cases; [by left|right].
  destruct (Hwf p sl Hsl) as [Hlen Harr]. split; simpl; [lia|done].
Qed.

Lemma wf_PopFront st p (x : A) st' :
  wf st -> PopFront st p = Some (x, st') -> wf st'.
Proof.
  intros Hwf. unfold PopFront.
  destruct (deref st p) as [sl|] eqn:Hsl; simpl; [|done].
  destruct (Nat.ltb_spec 0 (slen sl)) as [Hpos|?]; [|by intros [= _ <-]].
  destruct (backing st sl !! _); simpl; [|done]. intros [= _ <-].
  apply (wf_update st); [done|by apply arrays_kept_same|].
  intros q sl' [Hq| ->]%deref_set_parts_cases; [by left|right].
  destruct (Hwf p sl Hsl) as [Hlen Harr]. split; simpl; [lia|].
  intros Hcap. destruct Harr as (b & Hb & Hfit); [lia|].
  exists b. split; [done|lia].
Qed.

Lemma wf_append st sl (part : A) sl' st' :
  wf st -> slice_ok st sl ->
  append growslice st sl part = Some (sl', st') ->
  objects st' = objects st /\ arrays_kept st st' /\ slice_ok st' sl'.
Proof.
  intros Hwf [Hlen Harr]. unfold append.
  destruct (Nat.ltb_spec (slen sl) (scap sl)) as [Hroom|Hfull].
  - destruct (arrays st !! arr sl) as [a|] eqn:Ha; simpl; [|done].
    destruct (off sl + slen sl <? length a)%nat; [|done].
    intros [= <- <-]. simpl. split; [done|]. split.
    + intros i b Hb. destruct (decide (i = arr sl)) as [->|Hne].
      * eexists. split.
        { apply list_lookup_insert_eq. by eapply lookup_lt_Some. }
        rewrite length_insert. by simplify_eq.
      * exists b. simpl. by rewrite list_lookup_insert_ne.
    + split; simpl; [lia|]. intros _.
      destruct Harr as (a0 & Ha0 & Hfit); [lia|]. simplify_eq.
      eexists. split.
      { apply list_lookup_insert_eq. by eapply lookup_lt_Some. }
      by rewrite length_insert.
  - intros [= <- <-]. simpl. split; [done|]. split.
    + intros i b Hb. exists b. split; [|done]. simpl.
      rewrite lookup_app_l; [done|]. by eapply lookup_lt_Some.
    + split; simpl; [lia|]. intros _. eexists. split.
      { by rewrite list_lookup_middle. }
      rewrite length_app; simpl. rewrite length_replicate.
      rewrite (elems_length st sl); [lia|done].
Qed.

Lemma wf_PushBack st p (part : A) st' :
  wf st -> PushBack growslice st p part = Some (tt, st') -> wf st'.
Proof.
  intros Hwf. unfold PushBack.
  destruct (deref st p) as [sl|] eqn:Hsl; simpl; [|done].
  destruct (append growslice st sl part) as [[sl1 st1]|] eqn:Happ; simpl; [|done].
  intros [= <-].
  destruct (wf_append _ _ _ _ _ Hwf (Hwf p sl Hsl) Happ) as (Hobj & Hkept & Hok).
  apply (wf_update st); [done|done|].
  intros q sl' [Hq| ->]%deref_set_parts_cases; [left|by right].
  unfold deref in *. by rewrite <- Hobj.
Qed.

Lemma wf_Copy st p q st' :
  wf st -> Copy st p = Some (q, st') -> wf st'.
Proof.
  intros Hwf. unfold Copy.
  destruct (deref st p) as [sl|] eqn:Hsl; simpl; [|done]. intros [= _ <-].
  apply (wf_update st); [done|by apply arrays_kept_same|].
  intros r sl' [Hr| ->]%deref_snoc_cases; [by left|right].
  by eapply Hwf.
Qed.

Lemma wf_CopyAt st p (index : Z) (copy : option nat) st' :
  wf st -> CopyAt st p index = Some (copy, st') -> wf st'.
Proof.
  intros Hwf. unfold CopyAt.
  destruct (deref st p) as [sl|] eqn:Hsl; simpl; [|done].
  destruct (index <? 0) eqn:Hneg; simpl; [by intros [= _ <-]|].
  destruct (slen sl =? 0)%nat; simpl; [by intros [= _ <-]|].
  destruct (Z.ltb_spec (Z.of_nat (slen sl) - 1) index) as [?|Hin];
    [by intros [= _ <-]|].
  intros [= _ <-]. apply Z.ltb_ge in Hneg.
  apply (wf_update st); [done|by apply arrays_kept_same|].
  intros r sl' [Hr| ->]%deref_snoc_cases; [by left|right].
  destruct (Hwf p sl Hsl) as [Hlen Harr]. split; simpl; [lia|done].
Qed.

(** *** PushBack, Copy and CopyAt *)

Lemma load_same_arrays st st' p sl :
  arrays st' = arrays st -> deref st p = Some sl -> deref st' p = Some sl ->
  load st' p = load st p.
Proof.
  intros Harr Hp Hp'. unfold load, elems, backing.
  by rewrite Hp, Hp', Harr.
Qed.

(** Pop and PopFront change the slice of their own Path only: every other
    Path, a copy included, reads as before. *)
Lemma Pop_frame st p q (x : A) st' :
  p <> q -> Pop st q = Some (x, st') -> load st' p = load st p.
Proof.
  intros Hne. unfold Pop.
  destruct (deref st q) as [sl|] eqn:Hsl; simpl; [|done].
  destruct (0 <? slen sl)%nat; [|by intros [= _ <-]].
  destruct (backing st sl !! _); simpl; [|done]. intros [= _ <-].
  destruct (deref st p) as [slp|] eqn:Hp.
  - apply (load_same_arrays _ _ _ slp); [done|done|].
    by rewrite deref_set_parts_ne.
  - unfold load. by rewrite deref_set_parts_ne, Hp.
Qed.

Lemma PopFront_frame st p q (x : A) st' :
  p <> q -> PopFront st q = Some (x, st') -> load st' p = load st p.
Proof.
  intros Hne. unfold PopFront.
  destruct (deref st q) as [sl|] eqn:Hsl; simpl; [|done].
  destruct (0 <? slen sl)%nat; [|by intros [= _ <-]].
  destruct (backing st sl !! _); simpl; [|done]. intros [= _ <-].
  destruct (deref st p) as [slp|] eqn:Hp.
  - apply (load_same_arrays _ _ _ slp); [done|done|].
    by rewrite deref_set_parts_ne.
  - unfold load. by rewrite deref_set_parts_ne, Hp.
Qed.

(** PushBack adds the part at the end of the Path it is called on. *)
Lemma PushBack_load st p l (part : A) :
  wf st -> load st p = Some (mkPath l) ->
  exists st', PushBack growslice st p part = Some (tt, st') /\
              load st' p = Some (mkPath (l ++ [part])).
Proof.
  intros Hwf (sl & Hsl & Hel)%load_elems.
  pose proof (Hwf p sl Hsl) as Hok.
  pose proof (elems_length st sl Hok) as Hlen.
  destruct Hok as [Hle Harr].
  unfold PushBack, append. rewrite Hsl; simpl.
  destruct (Nat.ltb_spec (slen sl) (scap sl)) as [Hroom|Hfull].
  - destruct Harr as (a & Ha & Hfit); [lia|]. rewrite Ha; simpl.
    destruct (Nat.ltb_spec (off sl + slen sl) (length a)) as [Hin|?]; [|lia].
    eexists. split; [done|].
    unfold load. erewrite deref_set_parts by done. simpl. f_equal. f_equal.
    unfold elems, backing in *; simpl. rewrite Ha in Hel; simpl in Hel.
    rewrite list_lookup_insert_eq by (by eapply lookup_lt_Some). simpl.
    rewrite drop_insert_ge by lia.
    replace (off sl + slen sl - off sl)%nat with (slen sl) by lia.
    erewrite take_S_r.
    + by rewrite take_insert_ge, Hel by lia.
    + apply list_lookup_insert_eq. rewrite length_drop. lia.
  - eexists. split; [done|].
    unfold load. erewrite deref_set_parts by done. simpl. f_equal. f_equal.
    unfold elems at 1, backing; simpl.
    rewrite list_lookup_middle by done. simpl.
    rewrite Hel in *. rewrite <- Hlen.
    change (part :: ?r) with ([part] ++ r).
    rewrite app_assoc. apply take_app_length'.
    rewrite length_app; simpl. lia.
Qed.

(** Copy gives a Path with the same parts and leaves the original alone. *)
Lemma Copy_load st p l :
  load st p = Some (mkPath l) ->
  exists q st', Copy st p = Some (q, st') /\ q <> p /\
                load st' q = Some (mkPath l) /\
                load st' p = Some (mkPath l).
Proof.
  intros Hload. pose proof Hload as (sl & Hsl & Hel)%load_elems.
  unfold Copy. rewrite Hsl; simpl.
  assert (Hp : (p < length (objects st))%nat) by by eapply lookup_lt_Some.
  eexists _, _. split; [done|]. split; [lia|]. split.
  - unfold load, deref; simpl. rewrite list_lookup_middle by done. simpl.
    by rewrite <- Hel.
  - unfold load, deref; simpl. rewrite lookup_app_l by done.
    unfold deref in Hsl. rewrite Hsl; simpl. by rewrite <- Hel.
Qed.

(** CopyAt at a valid index gives a Path with the parts up to that index,
    so of size index+1, and leaves the original alone. *)
Lemma CopyAt_load st p l (index : Z) :
  wf st -> load st p = Some (mkPath l) ->
  0 <= index < Z.of_nat (length l) ->
  exists q st', CopyAt st p index = Some (Some q, st') /\ q <> p /\
                load st' q = Some (mkPath (take (Z.to_nat (index + 1)) l)) /\
                Size (mkPath (take (Z.to_nat (index + 1)) l)) = index + 1 /\
                load st' p = Some (mkPath l).
Proof.
  intros Hwf Hload Hidx. pose proof Hload as (sl & Hsl & Hel)%load_elems.
  pose proof (elems_length st sl (Hwf p sl Hsl)) as Hlen. rewrite Hel in Hlen.
  unfold CopyAt. rewrite Hsl; simpl.
  destruct (Z.ltb_spec index 0) as [?|_]; [lia|]. simpl.
  destruct (Nat.eqb_spec (slen sl) 0) as [?|_]; [lia|]. simpl.
  destruct (Z.ltb_spec (Z.of_nat (slen sl) - 1) index) as [?|_]; [lia|].
  assert (Hp : (p < length (objects st))%nat) by by eapply lookup_lt_Some.
  eexists _, _. split; [done|]. split; [lia|]. split; [|split].
  - unfold load, deref; simpl. rewrite list_lookup_middle by done. simpl.
    f_equal. f_equal. rewrite <- Hel. unfold elems, backing; simpl.
    rewrite take_take. f_equal. lia.
  - unfold Size; simpl. rewrite length_take. lia.
  - unfold load, deref; simpl. rewrite lookup_app_l by done.
    unfold deref in Hsl. rewrite Hsl; simpl. by rewrite <- Hel.
Qed.

(** The slip: the Path that CopyAt returns is a window on the array of the
    original, shorter than it but with the same capacity, so PushBack on the
    copy writes into the next slot of that array, which is the next part of
    the original. *)
Lemma CopyAt_PushBack_overwrites st p l (i : nat) (part : A) :
  wf st -> load st p = Some (mkPath l) ->
  (S i < length l)%nat ->
  exists q st1 st2,
    CopyAt st p (Z.of_nat i) = Some (Some q, st1) /\
    PushBack growslice st1 q part = Some (tt, st2) /\
    load st2 p = Some (mkPath (<[S i := part]> l)).
Proof.
  intros Hwf Hload Hi. pose proof Hload as (sl & Hsl & Hel)%load_elems.
  pose proof (Hwf p sl Hsl) as Hok.
  pose proof (elems_length st sl Hok) as Hlen. rewrite Hel in Hlen.
  destruct Hok as [Hle Harr]. destruct Harr as (a & Ha & Hfit); [lia|].
  assert (Hp : (p < length (objects st))%nat) by by eapply lookup_lt_Some.
  unfold CopyAt. rewrite Hsl; simpl.
  destruct (Z.ltb_spec (Z.of_nat i) 0) as [?|_]; [lia|]. simpl.
  destruct (Nat.eqb_spec (slen sl) 0) as [?|_]; [lia|]. simpl.
  destruct (Z.ltb_spec (Z.of_nat (slen sl) - 1) (Z.of_nat i)) as [?|_]; [lia|].
  eexists _, _, _. split; [done|].
  unfold PushBack, append, deref; simpl.
  rewrite list_lookup_middle by done. simpl.
  replace (Z.to_nat (Z.of_nat i + 1)) with (S i) by lia.
  destruct (Nat.ltb_spec (S i) (scap sl)) as [_|?]; [|lia].
  rewrite Ha; simpl.
  destruct (Nat.ltb_spec (off sl + S i) (length a)) as [_|?]; [|lia].
  split; [done|].
  unfold load, deref, set_parts; simpl.
  rewrite list_lookup_insert_ne by lia.
  rewrite lookup_app_l by done. unfold deref in Hsl. rewrite Hsl; simpl.
  f_equal. f_equal. unfold elems, backing in *; simpl.
  rewrite Ha in Hel; simpl in Hel.
  rewrite list_lookup_insert_eq by (by eapply lookup_lt_Some). simpl.
  rewrite drop_insert_ge by lia.
  replace (off sl + S i - off sl)%nat with (S i) by lia.
  rewrite take_insert_lt by lia. by rewrite Hel.
Qed.

End StoreFacts.

(** C9. On a Path without parts Pop and PopFront return the zero value and
    leave the store, hence the Path and its size 0, as they were; on a Path
    with parts Pop returns the last one and PopFront the first one, and the
    Path keeps the others. *)
Theorem C9_Pop_and_PopFront
    {A : Type} `{Part A} (st : store A) (p : nat) :
  wf st ->
  (load st p = Some (mkPath []) ->
   Pop st p = Some (part_zero, st) /\
   PopFront st p = Some (part_zero, st) /\
   Size <$> load st p = Some 0) /\
  (forall l x, load st p = Some (mkPath (l ++ [x])) ->
     exists st', Pop st p = Some (x, st') /\ load st' p = Some (mkPath l)) /\
  (forall l x, load st p = Some (mkPath (x :: l)) ->
     exists st', PopFront st p = Some (x, st') /\ load st' p = Some (mkPath l)).
Proof.
  intros Hwf. split; [|split].
  - intros Hempty. split; [by apply Pop_empty|].
    split; [by apply PopFront_empty|]. by rewrite Hempty.
  - intros l x. by apply Pop_last.
  - intros l x. by apply PopFront_first.
Qed.

Lemma C9_Pop_and_PopFront_witness :
  (exists st', Pop (new_path empty_store ["X"; "Y"] 0).2 0 = Some ("Y", st') /\
               load st' 0 = Some (mkPath ["X"])) /\
  (exists st', PopFront (new_path empty_store ["X"; "Y"] 0).2 0 = Some ("X", st') /\
               load st' 0 = Some (mkPath ["Y"])) /\
  Pop (new_path (@empty_store string) [] 0).2 0
  = Some ("", (new_path (@empty_store string) [] 0).2).
Proof.
  pose proof (wf_new_path (@empty_store string) ["X"; "Y"] 0 wf_empty_store) as Hwf.
  pose proof (wf_new_path (@empty_store string) [] 0 wf_empty_store) as Hwf0.
  destruct (C9_Pop_and_PopFront _ 0%nat Hwf) as (_ & Hpop & Hfront).
  destruct (C9_Pop_and_PopFront _ 0%nat Hwf0) as (Hempty & _ & _).
  split; [|split].
  - apply (Hpop ["X"] "Y"). reflexivity.
  - apply (Hfront ["Y"] "X"). reflexivity.
  - apply Hempty. reflexivity.
Defined.

(** C7 (seen from the code).  Copy and CopyAt put the slice of the original
    in the new Path, so the two Paths share one backing array.

    First run: [p := &Path{}; p.PushBack("X"); p.PushBack("Y");
    q := p.CopyAt(0); q.PushBack("Z")].  The copy holds "X" alone, and
    PushBack on it turns the original from X.Y into X.Z.

    Second run, on a Path [p] holding "X" in an array of two slots (as left by
    two PushBack and a Pop): [q := p.Copy(); q.PushBack("Z");
    p.PushBack("W")].  The copy holds X.Z before the last call and X.W after
    it. *)
Theorem C7_copies_share_the_backing_array (growslice : nat -> nat -> nat) :
  (exists st1 st2 q st3 st4,
      PushBack growslice (new_path empty_store [] 0).2 0 "X" = Some (tt, st1) /\
      PushBack growslice st1 0 "Y" = Some (tt, st2) /\
      load st2 0 = Some (mkPath ["X"; "Y"]) /\
      CopyAt st2 0 0 = Some (Some q, st3) /\
      load st3 q = Some (mkPath ["X"]) /\
      load st3 0 = Some (mkPath ["X"; "Y"]) /\
      PushBack growslice st3 q "Z" = Some (tt, st4) /\
      load st4 0 = Some (mkPath ["X"; "Z"])) /\
  (exists q st1 st2 st3,
      load (new_path empty_store ["X"] 1).2 0 = Some (mkPath ["X"]) /\
      Copy (new_path empty_store ["X"] 1).2 0 = Some (q, st1) /\
      PushBack growslice st1 q "Z" = Some (tt, st2) /\
      load st2 q = Some (mkPath ["X"; "Z"]) /\
      PushBack growslice st2 0 "W" = Some (tt, st3) /\
      load st3 q = Some (mkPath ["X"; "W"])).
Proof.
  split.
  - pose proof (wf_new_path (@empty_store string) [] 0 wf_empty_store) as Hwf0.
    destruct (PushBack_load growslice _ 0%nat [] "X" Hwf0 eq_refl)
      as (st1 & Hpush1 & Hload1).
    pose proof (wf_PushBack _ _ _ _ _ Hwf0 Hpush1) as Hwf1.
    destruct (PushBack_load growslice _ 0%nat _ "Y" Hwf1 Hload1)
      as (st2 & Hpush2 & Hload2).
    pose proof (wf_PushBack _ _ _ _ _ Hwf1 Hpush2) as Hwf2.
    simpl in Hload2.
    destruct (CopyAt_load st2 0%nat _ 0 Hwf2 Hload2)
      as (q & st3 & Hcopy & _ & Hq & _ & Hp); [simpl; lia|].
    destruct (CopyAt_PushBack_overwrites growslice st2 0%nat _ 0%nat "Z" Hwf2 Hload2)
      as (q' & st3' & st4 & Hcopy' & Hpush3 & Hover); [simpl; lia|].
    change (Z.of_nat 0) with 0 in Hcopy'.
    rewrite Hcopy in Hcopy'. injection Hcopy' as <- <-.
    exists st1, st2, q, st3, st4. by repeat split.
  - eexists _, _, _, _. repeat split; vm_compute; reflexivity.
Qed.

(** ** Further facts about strings *)

Lemma str_app_cons (c : ascii) (s t : string) :
  (String.String c s ++ t = String.String c (s ++ t))%string.
Proof. reflexivity. Qed.

Lemma str_app_assoc (s t u : string) : ((s ++ t) ++ u = s ++ (t ++ u))%string.
Proof.
  induction s as [|c s IH]; [done|]. by rewrite !str_app_cons, IH.
Qed.

Lemma str_app_nil_r (s : string) : (s ++ "" = s)%string.
Proof.
  induction s as [|c s IH]; [done|]. by rewrite str_app_cons, IH.
Qed.

Lemma len_cons (c : ascii) (s : string) : len (String.String c s) = 1 + len s.
Proof. unfold len. simpl. lia. Qed.

Lemma len_nonneg (s : string) : 0 <= len s.
Proof. unfold len. lia. Qed.

Lemma len_app (s t : string) : len (s ++ t) = len s + len t.
Proof.
  induction s as [|c s IH].
  - change (len t = 0 + len t). lia.
  - rewrite str_app_cons, !len_cons, IH. lia.
Qed.

Lemma len_drop_bytes (n : nat) (s : string) :
  (n <= String.length s)%nat -> len (drop_bytes n s) = len s - Z.of_nat n.
Proof.
  revert s. induction n as [|n IH]; intros s Hn; [simpl; lia|].
  destruct s as [|c s]; simpl in Hn; [lia|].
  rewrite len_cons. change (drop_bytes (S n) (String.String c s)) with (drop_bytes n s).
  rewrite IH by lia. lia.
Qed.

Lemma byte_at_in_range (s : string) (i : Z) :
  0 <= i < len s -> exists c, byte_at s i = Some c.
Proof.
  intros [Hlo Hhi]. unfold byte_at.
  destruct (Z.ltb_spec i 0) as [?|_]; [lia|].
  assert (Hn : (Z.to_nat i < String.length s)%nat) by (unfold len in Hhi; lia).
  revert Hn. generalize (Z.to_nat i). clear. intros n. revert s.
  induction n as [|n IH]; intros [|c s] Hn; simpl in *; try lia; eauto.
  apply IH. lia.
Qed.

Lemma byte_at_Some_range (s : string) (i : Z) (c : ascii) :
  byte_at s i = Some c -> 0 <= i < len s.
Proof.
  unfold byte_at. destruct (Z.ltb_spec i 0) as [?|Hlo]; [done|].
  intros Hget. split; [done|].
  assert (Hn : (Z.to_nat i < String.length s)%nat); [|unfold len; lia].
  revert Hget. generalize (Z.to_nat i). clear. intros n. revert s.
  induction n as [|n IH]; intros [|d s] Hget; simpl in *; try done; try lia.
  apply IH in Hget. lia.
Qed.

(** The slice from an index in range starts with the byte at that index. *)
Lemma slice_from_byte_at (s : string) (i : Z) (c : ascii) :
  byte_at s i = Some c ->
  exists rest, slice_from s i = Some (String.String c rest).
Proof.
  intros Hget. pose proof (byte_at_Some_range _ _ _ Hget) as [Hlo Hhi].
  unfold slice_from, byte_at in *.
  destruct (Z.ltb_spec i 0) as [?|_]; [lia|]. simpl.
  destruct (Z.ltb_spec (len s) i) as [?|_]; [lia|].
  revert Hget. generalize (Z.to_nat i). clear. intros n. revert s.
  induction n as [|n IH]; intros [|d s] Hget; simpl in *; try done.
  - injection Hget as ->. eauto.
  - by apply IH.
Qed.

(** When IndexAny finds a byte, its index is within the string. *)
Lemma IndexAny_from_range (s chars : string) (i : Z) :
  IndexAny_from i s chars = -1 \/
  i <= IndexAny_from i s chars < i + len s.
Proof.
  revert i. induction s as [|c s IH]; intros i; simpl; [by left|].
  rewrite len_cons. pose proof (len_nonneg s).
  destruct (contains_byte chars c); [right; lia|].
  destruct (IH (i + 1)) as [->|Hin]; [by left|right; lia].
Qed.

Lemma IndexAny_range (s chars : string) :
  (IndexAny s chars <? 0) = false -> 0 <= IndexAny s chars < len s.
Proof.
  intros Hpos%Z.ltb_ge. unfold IndexAny in *.
  destruct (IndexAny_from_range s chars 0) as [Hm|Hin]; lia.
Qed.

Lemma length_Split (s : string) (sep : ascii) :
  length (Split s sep) = S (count_byte sep s).
Proof.
  induction s as [|c s IH]; simpl; [done|].
  destruct (Ascii.eqb c sep); simpl; [by rewrite IH|].
  pose proof (Split_not_nil s sep).
  destruct (Split s sep) as [|f fs]; [done|]. simpl in *. done.
Qed.

(** Splitting two strings joined by the separator splits each of them. *)
Lemma Split_app_sep (s t : string) (sep : ascii) :
  Split (s ++ String.String sep t) sep = Split s sep ++ Split t sep.
Proof.
  induction s as [|c s IH].
  - change ("" ++ String.String sep t)%string with (String.String sep t).
    simpl. by rewrite Ascii.eqb_refl.
  - rewrite str_app_cons. simpl.
    destruct (Ascii.eqb c sep); [by rewrite IH|].
    rewrite IH. pose proof (Split_not_nil s sep).
    by destruct (Split s sep) as [|f fs].
Qed.

(** ** Further facts about strconv.Atoi *)

Lemma decimal_value_nonneg (s : string) (acc : Z) :
  all_digits s = true -> 0 <= acc -> 0 <= decimal_value acc s.
Proof.
  revert acc. induction s as [|c s IH]; intros acc Hdig Hacc; simpl in *; [done|].
  apply andb_prop in Hdig as [Hc Hs]. apply IH; [done|].
  unfold IsDigit in Hc. apply andb_prop in Hc as [Hlo%Z.leb_le _]. lia.
Qed.

(** On a string that starts with a digit Atoi reads no sign. *)
Lemma Atoi_digit_first (c : ascii) (r : string) :
  IsDigit c = true ->
  Atoi (String.String c r)
  = if all_digits r
    then if decimal_value 0 (String.String c r) <=? maxInt
         then Some (decimal_value 0 (String.String c r)) else None
    else None.
Proof.
  intros Hc.
  assert (Hbody : Atoi (String.String c r)
          = if all_digits (String.String c r)
            then if (minInt <=? decimal_value 0 (String.String c r))
                    && (decimal_value 0 (String.String c r) <=? maxInt)
                 then Some (decimal_value 0 (String.String c r)) else None
            else None).
  { destruct c as [[] [] [] [] [] [] [] []]; try discriminate Hc; reflexivity. }
  rewrite Hbody. cbn [all_digits]. rewrite Hc, andb_true_l.
  destruct (all_digits r) eqn:Hr; [|done].
  assert (Hnn : 0 <= decimal_value 0 (String.String c r)).
  { apply decimal_value_nonneg; [|done]. cbn [all_digits]. by rewrite Hc, Hr. }
  destruct (Z.leb_spec minInt (decimal_value 0 (String.String c r))) as [_|Hlt];
    [done|]. unfold minInt in Hlt. lia.
Qed.

Lemma slice_from_len (s : string) (lo : Z) (t : string) :
  slice_from s lo = Some t -> 0 <= lo <= len s /\ len t = len s - lo.
Proof.
  unfold slice_from.
  destruct (Z.ltb_spec lo 0) as [?|Hlo]; [done|]. simpl.
  destruct (Z.ltb_spec (len s) lo) as [?|Hhi]; [done|].
  intros [= <-]. split; [lia|].
  rewrite len_drop_bytes; [lia|]. unfold len in Hhi. lia.
Qed.

Lemma slice_from_in_range (s : string) (lo : Z) :
  0 <= lo <= len s -> exists t, slice_from s lo = Some t.
Proof.
  intros [Hlo Hhi]. unfold slice_from.
  destruct (Z.ltb_spec lo 0) as [?|_]; [lia|]. simpl.
  destruct (Z.ltb_spec (len s) lo) as [?|_]; [lia|]. eauto.
Qed.

Lemma byte_at_after (s : string) (c : ascii) (t : string) :
  byte_at (s ++ String.String c t) (len s) = Some c.
Proof.
  unfold byte_at, len.
  destruct (Z.ltb_spec (Z.of_nat (String.length s)) 0) as [?|_]; [lia|].
  rewrite Nat2Z.id. induction s as [|d s IH]; [done|].
  rewrite str_app_cons. simpl. exact IH.
Qed.

(** ** The loop of findElementIndexWithClosingOffset *)

Lemma IsDigit_not_bracket : IsDigit "]" = false.
Proof. reflexivity. Qed.

(** On digits closed by a bracket the loop converts what it has collected. *)
Lemma digits_loop_complete (ds rest idxStr : string) (cursor : Z) :
  all_digits ds = true ->
  digits_loop (ds ++ String.String "]" rest) idxStr cursor
  = match Atoi (idxStr ++ ds) with
    | Some idx => Ok (idx, cursor + len ds)
    | None => ErrInvalidPath
    end.
Proof.
  revert idxStr cursor. induction ds as [|c ds IH]; intros idxStr cursor Hds.
  - change ("" ++ String.String "]" rest)%string with (String.String "]" rest).
    cbn [digits_loop]. rewrite IsDigit_not_bracket, Ascii.eqb_refl, str_app_nil_r.
    unfold len; simpl. by rewrite Z.add_0_r.
  - cbn [all_digits] in Hds. apply andb_prop in Hds as [Hc Hds].
    rewrite str_app_cons. cbn [digits_loop]. rewrite Hc, IH by done.
    rewrite str_app_assoc, str_app_cons, len_cons.
    change ("" ++ ds)%string with ds.
    by replace (cursor + 1 + len ds) with (cursor + (1 + len ds)) by lia.
Qed.

(** The loop succeeds only on digits closed by a bracket, and the offset it
    returns is that of the bracket. *)
Lemma digits_loop_sound (rest idxStr : string) (cursor idx off : Z) :
  digits_loop rest idxStr cursor = Ok (idx, off) ->
  exists ds rest',
    rest = (ds ++ String.String "]" rest')%string /\
    all_digits ds = true /\
    Atoi (idxStr ++ ds) = Some idx /\
    off = cursor + len ds.
Proof.
  revert idxStr cursor. induction rest as [|c rest IH]; intros idxStr cursor;
    cbn [digits_loop]; [done|].
  destruct (IsDigit c) eqn:Hc.
  - intros (ds & rest' & -> & Hds & Hatoi & ->)%IH.
    exists (String.String c ds), rest'. rewrite str_app_cons, len_cons.
    cbn [all_digits]. rewrite Hc, Hds.
    rewrite str_app_assoc, str_app_cons in Hatoi.
    change ("" ++ ds)%string with ds in Hatoi.
    repeat split; [done|lia].
  - destruct (Ascii.eqb_spec c "]") as [->|_]; [|done].
    destruct (Atoi idxStr) as [v|] eqn:Hatoi; [|done]. intros [= <- <-].
    exists EmptyString, rest. rewrite str_app_nil_r.
    repeat split; [done|]. unfold len; simpl. lia.
Qed.

Lemma digits_loop_no_panic (rest idxStr : string) (cursor : Z) :
  digits_loop rest idxStr cursor <> Panic.
Proof.
  revert idxStr cursor. induction rest as [|c rest IH]; intros idxStr cursor;
    cbn [digits_loop]; [done|].
  destruct (IsDigit c); [apply IH|].
  destruct (Ascii.eqb c "]"); [|done]. by destruct (Atoi idxStr).
Qed.

(** ** The invariant of the scan *)

Lemma field_or_element_Field (field : string) : field_or_element (FieldPart field).
Proof. split; simpl; [done|]. unfold maxInt. lia. Qed.

Lemma scan_inv_start (subject : string) : scan_inv subject scan_start.
Proof.
  repeat split; simpl; [lia|apply len_nonneg|constructor].
Qed.

(** One iteration keeps the invariant, ends the loop with parts that are
    Fields and Elements, or returns the error; it does not panic. *)
Lemma scan_step_inv (subject : string) (st : scan) :
  scan_inv subject st ->
  match scan_step subject st with
  | Next st' => scan_inv subject st'
  | Break ps => Forall field_or_element ps
  | Return r => r = ErrInvalidPath
  end.
Proof.
  intros (Hcur & Hlbp & Hparts). unfold scan_step.
  destruct (slice_from_in_range subject (cursor st) Hcur) as [rest Hrest].
  destruct (slice_from_len _ _ _ Hrest) as [_ Hlen].
  rewrite Hrest. cbn [lift].
  destruct (IndexAny rest "[." <? 0) eqn:Hidx.
  { destruct (cursor st <? len subject); [|done].
    apply Forall_app. split; [done|].
    constructor; [apply field_or_element_Field|constructor]. }
  apply IndexAny_range in Hidx.
  destruct (byte_at_in_range subject (IndexAny rest "[.")) as [special Hsp]; [lia|].
  rewrite Hsp. cbn [lift].
  destruct (Ascii.eqb special "["); [|exact (conj Hcur (conj Hlbp Hparts))].
  rewrite Hlbp. change (0 <? -1) with false. cbv iota.
  destruct (Z.leb_spec (len subject) (IndexAny rest "[." + 1)) as [?|Hin]; [done|].
  destruct (byte_at_in_range subject (IndexAny rest "[." + 1)) as [nextChar Hnext];
    [lia|].
  rewrite Hnext. cbn [lift].
  destruct (Ascii.eqb nextChar "'"); [done|].
  destruct (IsDigit nextChar) eqn:Hdig; [|done].
  destruct (slice_from_byte_at _ _ _ Hnext) as [rest1 Hsub].
  destruct (slice_from_len _ _ _ Hsub) as [_ Hlen1]. rewrite len_cons in Hlen1.
  rewrite Hsub. cbn [lift findElementIndexWithClosingOffset].
  destruct (digits_loop rest1 (String.String nextChar "") 1)
    as [[idx off]| |] eqn:Hloop; [|done|by apply digits_loop_no_panic in Hloop].
  apply digits_loop_sound in Hloop as (ds & rest' & -> & Hds & Hatoi & ->).
  rewrite str_app_cons in Hatoi. change ("" ++ ds)%string with ds in Hatoi.
  rewrite Atoi_digit_first, Hds in Hatoi by done.
  rewrite len_app, len_cons in Hlen1.
  pose proof (len_nonneg ds). pose proof (len_nonneg rest').
  split; [simpl; lia|]. split; [done|]. simpl.
  apply Forall_app. split; [done|]. constructor; [|constructor].
  assert (Hnn : 0 <= decimal_value 0 (String.String nextChar ds)).
  { apply decimal_value_nonneg; [|done]. cbn [all_digits]. by rewrite Hdig, Hds. }
  destruct (Z.leb_spec (decimal_value 0 (String.String nextChar ds)) maxInt)
    as [Hle|?]; [|done].
  assert (Hidx' : idx = decimal_value 0 (String.String nextChar ds)) by congruence.
  rewrite Hidx'. split; [done|]. exact (conj Hnn Hle).
Qed.

Lemma scan_loop_inv (subject : string) (fuel : nat) :
  forall st r,
    scan_inv subject st ->
    scan_loop fuel subject st = Some r ->
    r = ErrInvalidPath \/
    exists p, r = Ok p /\ Forall field_or_element (parts p).
Proof.
  induction fuel as [|fuel IH]; intros st r Hinv; simpl; [done|].
  pose proof (scan_step_inv subject st Hinv) as Hstep.
  destruct (scan_step subject st) as [st'|ps|r'].
  - by apply IH.
  - intros [= <-]. right. by exists (mkPath ps).
  - intros [= <-]. by left.
Qed.

(** ** Further properties of FromString *)

Lemma slice_from_0 (s : string) : slice_from s 0 = Some s.
Proof.
  unfold slice_from. pose proof (len_nonneg s).
  destruct (Z.ltb_spec (len s) 0) as [?|_]; [lia|]. done.
Qed.

(** A string that holds a byte of the set is not free of the set. *)
Lemma byte_at_not_free (s chars : string) (i : Z) (c : ascii) :
  byte_at s i = Some c -> contains_byte chars c = true ->
  free_of chars s = false.
Proof.
  unfold byte_at. destruct (i <? 0); [done|].
  generalize (Z.to_nat i). intros n. revert s. unfold free_of.
  induction n as [|n IH]; intros [|d s] Hget Hin; simpl in *; try done.
  - injection Hget as ->. by rewrite Hin.
  - rewrite (IH s Hget Hin). apply andb_false_r.
Qed.

(** X1. A subject without square brackets always parses: the Path has one
    Field part for each piece between the dots, one more than there are dots
    and so never none, and String gives the subject back byte for byte,
    whatever the pieces are (empty ones included). *)
Theorem X1_bracket_free_round_trip (subject : string) :
  no_brackets subject = true ->
  exists p,
    FromString_returns subject (Ok p) /\
    String p = subject /\
    Size p = 1 + Z.of_nat (count_byte "." subject) /\
    Forall (fun part => partType_of part = partTypeField) (parts p).
Proof.
  intros Hnb. exists (mkPath (map FieldPart (Split subject "."))).
  split; [by apply FromString_fast_path|]. split; [|split].
  - rewrite String_of_fields. apply Join_Split.
  - unfold Size; simpl. rewrite length_map, length_Split. lia.
  - simpl. apply Forall_map. by apply Forall_true.
Qed.

Lemma X1_bracket_free_round_trip_witness :
  exists p,
    FromString_returns "A..B" (Ok p) /\
    String p = "A..B" /\
    Size p = 3 /\
    Forall (fun part => partType_of part = partTypeField) (parts p).
Proof. apply (X1_bracket_free_round_trip "A..B"). reflexivity. Defined.

(** X2. FromString never panics: no index or slice expression of the scan is
    ever out of range, whatever the subject. *)
Theorem X2_FromString_never_panics (subject : string) :
  ~ FromString_returns subject Panic.
Proof.
  intros [fuel Hrun]. unfold FromString_fuel in Hrun.
  destruct (no_brackets subject); [done|].
  destruct (scan_loop_inv subject fuel _ _ (scan_inv_start subject) Hrun)
    as [?|(p & ? & _)]; done.
Qed.

(** X3. A Path that FromString returns holds no Key part: every part is a
    Field or an Element, and the index of an Element is between 0 and the
    largest [int]. *)
Theorem X3_FromString_parts_are_fields_and_elements
    (subject : string) (p : Path pathPart) :
  FromString_returns subject (Ok p) ->
  Forall field_or_element (parts p).
Proof.
  intros [fuel Hrun]. unfold FromString_fuel in Hrun.
  destruct (no_brackets subject).
  - injection Hrun as <-. simpl. apply Forall_map.
    apply Forall_true. intros f. apply field_or_element_Field.
  - destruct (scan_loop_inv subject fuel _ _ (scan_inv_start subject) Hrun)
      as [?|(p' & [= <-] & Hparts)]; done.
Qed.

Lemma X3_FromString_parts_are_fields_and_elements_witness :
  Forall field_or_element [ElementPart 12; FieldPart "]x"].
Proof.
  apply (X3_FromString_parts_are_fields_and_elements "A[12]x"
           (mkPath [ElementPart 12; FieldPart "]x"])).
  exists 2%nat. vm_compute. reflexivity.
Defined.

(** X4. Whenever the subject has a square bracket and the first of its '['
    and '.' bytes is a dot, FromString does not return: the iteration that
    meets the dot leaves the cursor in place. *)
Theorem X4_dot_before_bracket_never_returns (subject : string) :
  no_brackets subject = false ->
  byte_at subject (IndexAny subject "[.") = Some "."%char ->
  FromString_diverges subject /\ forall r, ~ FromString_returns subject r.
Proof.
  intros Hnb Hdot.
  pose proof (FromString_dot_first_diverges subject Hnb Hdot) as Hdiv.
  split; [done|]. intros r. by apply FromString_diverges_no_result.
Qed.

Lemma X4_dot_before_bracket_never_returns_witness :
  FromString_diverges "A.B[0]" /\ forall r, ~ FromString_returns "A.B[0]" r.
Proof.
  apply (X4_dot_before_bracket_never_returns "A.B[0]"); reflexivity.
Defined.

(** X5. Whenever the first of the '[' and '.' bytes of the subject is a '['
    and the byte after it is not a digit (a quote, a letter, another bracket)
    or is missing, FromString returns ErrInvalidPath. *)
Theorem X5_accessor_without_digit_is_rejected (subject : string) :
  byte_at subject (IndexAny subject "[.") = Some "["%char ->
  (forall c, byte_at subject (IndexAny subject "[." + 1) = Some c ->
             IsDigit c = false) ->
  FromString_returns subject ErrInvalidPath.
Proof.
  intros Hsp Hnd. pose proof (byte_at_Some_range _ _ _ Hsp) as [Hlo Hhi].
  assert (Hnb : no_brackets subject = false).
  { unfold no_brackets. rewrite IndexAny_free_of.
    by apply (byte_at_not_free _ _ _ _ Hsp). }
  exists 1%nat. unfold FromString_fuel. rewrite Hnb. simpl.
  unfold scan_step, scan_start. cbn [cursor leftBracketPos scanned].
  rewrite slice_from_0. cbn [lift].
  destruct (Z.ltb_spec (IndexAny subject "[.") 0) as [?|_]; [lia|].
  rewrite Hsp. cbn [lift]. rewrite Ascii.eqb_refl.
  change (0 <? -1) with false. cbv iota.
  destruct (Z.leb_spec (len subject) (IndexAny subject "[." + 1)) as [?|Hin];
    [done|].
  destruct (byte_at_in_range subject (IndexAny subject "[." + 1)) as [c Hc]; [lia|].
  rewrite Hc. cbn [lift]. rewrite (Hnd c Hc).
  by destruct (Ascii.eqb c "'").
Qed.

Lemma X5_accessor_without_digit_is_rejected_witness :
  FromString_returns "Books['Gone With the Wind'].Title" ErrInvalidPath.
Proof.
  apply (X5_accessor_without_digit_is_rejected "Books['Gone With the Wind'].Title").
  - reflexivity.
  - intros c Hc. vm_compute in Hc. injection Hc as <-. reflexivity.
Defined.

(** X6. On a string that starts with one or more digits followed by ']',
    findElementIndexWithClosingOffset returns the decimal value of the digits
    and the offset of that ']', which is the number of digits; when the value
    does not fit an [int] it returns the error. *)
Theorem X6_findElementIndex_on_digits (c : ascii) (ds rest : string) :
  IsDigit c = true ->
  all_digits ds = true ->
  findElementIndexWithClosingOffset (String.String c ds ++ String.String "]" rest)
  = if decimal_value 0 (String.String c ds) <=? maxInt
    then Ok (decimal_value 0 (String.String c ds), len (String.String c ds))
    else ErrInvalidPath.
Proof.
  intros Hc Hds. rewrite str_app_cons. cbn [findElementIndexWithClosingOffset].
  rewrite digits_loop_complete by done.
  rewrite str_app_cons. change ("" ++ ds)%string with ds.
  rewrite Atoi_digit_first, Hds, len_cons by done.
  by destruct (decimal_value 0 (String.String c ds) <=? maxInt).
Qed.

Lemma X6_findElementIndex_on_digits_witness :
  findElementIndexWithClosingOffset "2089].Name" = Ok (2089, 4).
Proof.
  apply (X6_findElementIndex_on_digits "2" "089" ".Name"); reflexivity.
Defined.

(** X7. findElementIndexWithClosingOffset succeeds only when the bytes after
    the first one are digits up to a ']': the offset it returns is positive,
    within the string, and the byte there is that ']'; and when the first
    byte is a digit too, the index it returns is between 0 and the largest
    [int]. *)
Theorem X7_findElementIndex_offset_is_the_bracket
    (subject : string) (idx off : Z) :
  findElementIndexWithClosingOffset subject = Ok (idx, off) ->
  0 < off < len subject /\
  byte_at subject off = Some "]"%char /\
  (exists c ds rest,
     subject = String.String c (ds ++ String.String "]" rest) /\
     all_digits ds = true /\ off = 1 + len ds /\
     (IsDigit c = true ->
      idx = decimal_value 0 (String.String c ds) /\ 0 <= idx <= maxInt)).
Proof.
  destruct subject as [|c rest]; [done|]. cbn [findElementIndexWithClosingOffset].
  intros (ds & rest' & -> & Hds & Hatoi & ->)%digits_loop_sound.
  pose proof (len_nonneg ds). pose proof (len_nonneg rest').
  split; [|split].
  - rewrite len_cons, len_app, len_cons. lia.
  - change (String.String c (ds ++ String.String "]" rest'))
      with (String.String c ds ++ String.String "]" rest')%string.
    rewrite <- (len_cons c ds). apply byte_at_after.
  - exists c, ds, rest'. split; [done|]. split; [done|]. split; [done|].
    intros Hc. rewrite str_app_cons in Hatoi.
    change ("" ++ ds)%string with ds in Hatoi.
    rewrite Atoi_digit_first, Hds in Hatoi by done.
    assert (Hnn : 0 <= decimal_value 0 (String.String c ds)).
    { apply decimal_value_nonneg; [|done]. cbn [all_digits]. by rewrite Hc, Hds. }
    destruct (Z.leb_spec (decimal_value 0 (String.String c ds)) maxInt) as [Hle|?];
      [|done].
    assert (Hidx : idx = decimal_value 0 (String.String c ds)) by congruence.
    rewrite Hidx. exact (conj eq_refl (conj Hnn Hle)).
Qed.

Lemma X7_findElementIndex_offset_is_the_bracket_witness :
  0 < 2 < len "12]x" /\ byte_at "12]x" 2 = Some "]"%char.
Proof.
  destruct (X7_findElementIndex_offset_is_the_bracket "12]x" 12 2 eq_refl)
    as (Hoff & Hbyte & _).
  exact (conj Hoff Hbyte).
Defined.

(** ** Further properties of the methods of Path *)

(** X8. At never indexes out of range: it returns the part at the index when
    there is one and the zero value for every other index, negative ones
    included; Front is At of 0 and Back is At of the last index, so both give
    the zero value on the empty Path. *)
Theorem X8_At_Front_Back {A : Type} `{Part A} (p : Path A) (i : Z) :
  At p i = Some (default part_zero
                   (if i <? 0 then None else parts p !! Z.to_nat i)) /\
  Front p = At p 0 /\
  Back p = At p (Size p - 1).
Proof.
  unfold At, Front, Back, Size. destruct p as [l]; simpl.
  split; [|split].
  - destruct (Z.ltb_spec i 0) as [?|Hlo]; simpl; [done|].
    destruct (Z.eqb_spec (Z.of_nat (length l)) 0) as [Hz|Hnz]; simpl.
    { destruct l; [|simpl in Hz; lia]. by rewrite lookup_nil. }
    destruct (Z.ltb_spec (Z.of_nat (length l) - 1) i) as [Hhi|Hin].
    + rewrite lookup_ge_None_2 by lia. done.
    + destruct (lookup_lt_is_Some_2 l (Z.to_nat i)) as [x Hx]; [lia|].
      by rewrite Hx.
  - change (0 <? 0) with false. simpl.
    destruct (Z.eqb_spec (Z.of_nat (length l)) 0) as [Hz|Hnz]; simpl; [done|].
    destruct (Z.ltb_spec (Z.of_nat (length l) - 1) 0) as [?|_]; [lia|]. done.
  - destruct (Z.eqb_spec (Z.of_nat (length l)) 0) as [Hz|Hnz].
    { by rewrite orb_true_r. }
    destruct (Z.ltb_spec (Z.of_nat (length l) - 1) 0) as [?|_]; [lia|].
    by rewrite Z.ltb_irrefl.
Qed.

(** X9. PushBack followed by Pop on the same Path returns the part that was
    pushed and leaves the Path with the parts it had. *)
Theorem X9_PushBack_then_Pop {A : Type} `{Part A}
    (growslice : nat -> nat -> nat) (st : store A) (p : nat)
    (l : list A) (part : A) :
  wf st ->
  load st p = Some (mkPath l) ->
  exists st1 st2,
    PushBack growslice st p part = Some (tt, st1) /\
    load st1 p = Some (mkPath (l ++ [part])) /\
    Pop st1 p = Some (part, st2) /\
    load st2 p = Some (mkPath l).
Proof.
  intros Hwf Hload.
  destruct (PushBack_load growslice st p l part Hwf Hload) as (st1 & Hpush & Hl1).
  pose proof (wf_PushBack growslice _ _ _ _ Hwf Hpush) as Hwf1.
  destruct (Pop_last st1 p l part Hwf1 Hl1) as (st2 & Hpop & Hl2).
  by exists st1, st2.
Qed.

Lemma X9_PushBack_then_Pop_witness :
  exists st1 st2,
    PushBack (fun _ n => n) (new_path empty_store ["X"] 0).2 0 "Y" = Some (tt, st1) /\
    load st1 0 = Some (mkPath ["X"; "Y"]) /\
    Pop st1 0 = Some ("Y", st2) /\
    load st2 0 = Some (mkPath ["X"]).
Proof.
  apply (X9_PushBack_then_Pop (fun _ n => n)
           (new_path empty_store ["X"] 0).2 0%nat ["X"] "Y").
  - apply wf_new_path, wf_empty_store.
  - reflexivity.
Defined.

(** X10. Pop and PopFront on one Path never change what any other Path
    reads, a Path that shares its backing array included: they move the
    bounds of their own slice and write no element. *)
Theorem X10_Pop_changes_no_other_Path {A : Type} `{Part A}
    (st : store A) (p q : nat) (x : A) (st' : store A) :
  p <> q ->
  Pop st q = Some (x, st') \/ PopFront st q = Some (x, st') ->
  load st' p = load st p /\ arrays st' = arrays st.
Proof.
  intros Hne [Hpop|Hpop]; split.
  - by eapply Pop_frame.
  - revert Hpop. unfold Pop. destruct (deref st q) as [sl|]; simpl; [|done].
    destruct (0 <? slen sl)%nat; [|by intros [= _ <-]].
    destruct (backing st sl !! _); simpl; [|done]. by intros [= _ <-].
  - by eapply PopFront_frame.
  - revert Hpop. unfold PopFront. destruct (deref st q) as [sl|]; simpl; [|done].
    destruct (0 <? slen sl)%nat; [|by intros [= _ <-]].
    destruct (backing st sl !! _); simpl; [|done]. by intros [= _ <-].
Qed.

Lemma X10_Pop_changes_no_other_Path_witness :
  exists q st1 st2,
    Copy (new_path empty_store ["X"; "Y"] 0).2 0 = Some (q, st1) /\
    Pop st1 q = Some ("Y", st2) /\
    load st2 0 = Some (mkPath ["X"; "Y"]).
Proof.
  eexists 1%nat, _, _. split; [reflexivity|]. split; [reflexivity|].
  destruct (X10_Pop_changes_no_other_Path
              (mkStore [["X"; "Y"]] [mkSlice 0 0 2 2; mkSlice 0 0 2 2])
              0%nat 1%nat "Y"
              (mkStore [["X"; "Y"]] [mkSlice 0 0 2 2; mkSlice 0 0 1 2]))
    as [Hload _]; [lia|by left|]. exact Hload.
Defined.

Section MoreStoreFacts.
Context {A : Type} `{Part A}.
Variable growslice : nat -> nat -> nat.

Implicit Types (st : store A) (sl : slice) (p q : nat) (l : list A).

(** A new Path struct at the end of [objects] is a pointer that read nothing
    before, and no other pointer reads differently. *)
Lemma load_new_object st sl :
  load st (length (objects st)) = None /\
  forall r, r <> length (objects st) ->
    load (mkStore (arrays st) (objects st ++ [sl])) r = load st r.
Proof.
  split.
  - unfold load, deref. by rewrite lookup_ge_None_2.
  - intros r Hr. unfold load, deref; simpl.
    destruct (decide (r < length (objects st))%nat) as [Hlt|Hge].
    + rewrite lookup_app_l by done. by destruct (objects st !! r).
    + rewrite !lookup_ge_None_2; [done|lia|rewrite length_app; simpl; lia].
Qed.

Lemma Pop_returns st p l :
  wf st -> load st p = Some (mkPath l) ->
  exists x st', Pop st p = Some (x, st').
Proof.
  intros Hwf Hload. destruct l as [|x l _] using rev_ind.
  - eexists _, _. by apply Pop_empty.
  - destruct (Pop_last st p l x Hwf Hload) as (st' & Hpop & _). eauto.
Qed.

Lemma PopFront_returns st p l :
  wf st -> load st p = Some (mkPath l) ->
  exists x st', PopFront st p = Some (x, st').
Proof.
  intros Hwf Hload. destruct l as [|x l].
  - eexists _, _. by apply PopFront_empty.
  - destruct (PopFront_first st p l x Hwf Hload) as (st' & Hpop & _). eauto.
Qed.

Lemma CopyAt_returns st p l (index : Z) :
  load st p = Some (mkPath l) ->
  exists r st', CopyAt st p index = Some (r, st').
Proof.
  intros (sl & Hsl & _)%load_elems. unfold CopyAt. rewrite Hsl; simpl.
  destruct ((index <? 0) || (slen sl =? 0)%nat
            || (Z.of_nat (slen sl) - 1 <? index)); eauto.
Qed.

End MoreStoreFacts.

(** X11. The methods keep every slice of the store within its backing array,
    and under that invariant none of them panics: on a valid Path pointer
    Pop, PopFront, PushBack, Copy and CopyAt all return, and the store they
    leave satisfies the invariant again.  The empty store satisfies it. *)
Theorem X11_methods_keep_the_store_well_formed {A : Type} `{Part A}
    (growslice : nat -> nat -> nat) (st : store A) (p : nat) (l : list A) :
  wf st ->
  load st p = Some (mkPath l) ->
  (exists x st', Pop st p = Some (x, st') /\ wf st') /\
  (exists x st', PopFront st p = Some (x, st') /\ wf st') /\
  (forall part, exists st', PushBack growslice st p part = Some (tt, st') /\ wf st') /\
  (exists q st', Copy st p = Some (q, st') /\ wf st') /\
  (forall index, exists r st', CopyAt st p index = Some (r, st') /\ wf st').
Proof.
  intros Hwf Hload. split; [|split; [|split; [|split]]].
  - destruct (Pop_returns st p l Hwf Hload) as (x & st' & Hpop).
    exists x, st'. split; [done|]. by eapply wf_Pop.
  - destruct (PopFront_returns st p l Hwf Hload) as (x & st' & Hpop).
    exists x, st'. split; [done|]. by eapply wf_PopFront.
  - intros part.
    destruct (PushBack_load growslice st p l part Hwf Hload) as (st' & Hpush & _).
    exists st'. split; [done|]. by eapply wf_PushBack.
  - destruct (Copy_load st p l Hload) as (q & st' & Hcopy & _).
    exists q, st'. split; [done|]. by eapply wf_Copy.
  - intros index.
    destruct (CopyAt_returns st p l index Hload) as (r & st' & Hcopy).
    exists r, st'. split; [done|]. by eapply wf_CopyAt.
Qed.

Lemma X11_methods_keep_the_store_well_formed_witness :
  exists x st', Pop (new_path empty_store ["X"; "Y"] 0).2 0 = Some (x, st') /\ wf st'.
Proof.
  destruct (X11_methods_keep_the_store_well_formed (fun _ n => n)
              (new_path empty_store ["X"; "Y"] 0).2 0%nat ["X"; "Y"])
    as (Hpop & _).
  - apply wf_new_path, wf_empty_store.
  - reflexivity.
  - exact Hpop.
Defined.

(** X12. CopyAt with an index that is negative or not below the size returns
    nil and changes nothing.  With an index in range it returns a pointer that
    was not in use; the new Path reads as the parts up to and including that
    index, index+1 of them, and every other Path reads as before. *)
Theorem X12_CopyAt_bounds_and_prefix {A : Type} `{Part A}
    (st : store A) (p : nat) (l : list A) (index : Z) :
  wf st ->
  load st p = Some (mkPath l) ->
  (index < 0 \/ Z.of_nat (length l) <= index ->
   CopyAt st p index = Some (None, st)) /\
  (0 <= index < Z.of_nat (length l) ->
   exists q st',
     CopyAt st p index = Some (Some q, st') /\
     load st q = None /\
     load st' q = Some (mkPath (take (Z.to_nat (index + 1)) l)) /\
     Size (mkPath (take (Z.to_nat (index + 1)) l)) = index + 1 /\
     forall r, r <> q -> load st' r = load st r).
Proof.
  intros Hwf Hload. split.
  - intros Hout. pose proof Hload as (sl & Hsl & Hel)%load_elems.
    pose proof (elems_length st sl (Hwf p sl Hsl)) as Hlen. rewrite Hel in Hlen.
    unfold CopyAt. rewrite Hsl; simpl.
    destruct (Z.ltb_spec index 0) as [?|?]; [done|]. simpl.
    destruct (Nat.eqb_spec (slen sl) 0) as [?|?]; [done|]. simpl.
    destruct (Z.ltb_spec (Z.of_nat (slen sl) - 1) index) as [?|?]; [done|lia].
  - intros Hin.
    destruct (CopyAt_load st p l index Hwf Hload Hin)
      as (q & st' & Hcopy & _ & Hq & Hsize & _).
    exists q, st'. split; [done|].
    assert (Hshape : exists sl, q = length (objects st) /\
                                st' = mkStore (arrays st) (objects st ++ [sl])).
    { revert Hcopy. unfold CopyAt.
      destruct (deref st p) as [sl|]; simpl; [|done].
      destruct ((index <? 0) || (slen sl =? 0)%nat
                || (Z.of_nat (slen sl) - 1 <? index)); [done|].
      intros [= <- <-]. eauto. }
    destruct Hshape as (sl & -> & ->).
    destruct (load_new_object st sl) as [Hfresh Hothers]. by repeat split.
Qed.

Lemma X12_CopyAt_bounds_and_prefix_witness :
  CopyAt (new_path empty_store ["X"; "Y"] 0).2 0 2
  = Some (None, (new_path empty_store ["X"; "Y"] 0).2) /\
  exists q st',
    CopyAt (new_path empty_store ["X"; "Y"] 0).2 0 0 = Some (Some q, st') /\
    load st' q = Some (mkPath ["X"]).
Proof.
  pose proof (wf_new_path (@empty_store string) ["X"; "Y"] 0 wf_empty_store) as Hwf.
  split.
  - destruct (X12_CopyAt_bounds_and_prefix _ 0%nat ["X"; "Y"] 2 Hwf eq_refl)
      as [Hout _]. apply Hout. right. simpl. lia.
  - destruct (X12_CopyAt_bounds_and_prefix _ 0%nat ["X"; "Y"] 0 Hwf eq_refl)
      as [_ Hin]. destruct Hin as (q & st' & Hcopy & _ & Hq & _); [simpl; lia|].
    by exists q, st'.
Defined.

(** X13. Copy returns a pointer that was not in use; the new Path reads as
    the original does, and every other Path, the original included, reads as
    before. *)
Theorem X13_Copy_reads_as_the_original {A : Type} `{Part A}
    (st : store A) (p : nat) (l : list A) :
  load st p = Some (mkPath l) ->
  exists q st',
    Copy st p = Some (q, st') /\
    load st q = None /\
    load st' q = Some (mkPath l) /\
    forall r, r <> q -> load st' r = load st r.
Proof.
  intros Hload.
  destruct (Copy_load st p l Hload) as (q & st' & Hcopy & _ & Hq & _).
  exists q, st'. split; [done|].
  assert (Hshape : exists sl, q = length (objects st) /\
                              st' = mkStore (arrays st) (objects st ++ [sl])).
  { revert Hcopy. unfold Copy. destruct (deref st p) as [sl|]; simpl; [|done].
    intros [= <- <-]. eauto. }
  destruct Hshape as (sl & -> & ->).
  destruct (load_new_object st sl) as [Hfresh Hothers]. by repeat split.
Qed.

Lemma X13_Copy_reads_as_the_original_witness :
  exists q st',
    Copy (new_path empty_store ["X"; "Y"] 0).2 0 = Some (q, st') /\
    load (new_path empty_store ["X"; "Y"] 0).2 q = None /\
    load st' q = Some (mkPath ["X"; "Y"]) /\
    forall r, r <> q -> load st' r = load (new_path empty_store ["X"; "Y"] 0).2 r.
Proof.
  apply (X13_Copy_reads_as_the_original
           (new_path empty_store ["X"; "Y"] 0).2 0%nat ["X"; "Y"]).
  reflexivity.
Defined.

(** X14. After CopyAt at an index that is not the last one, PushBack on the
    returned Path writes into the backing array it shares with the original:
    the original then reads with its part at index+1 replaced by the part
    that was pushed. *)
Theorem X14_PushBack_on_CopyAt_overwrites_the_original {A : Type} `{Part A}
    (growslice : nat -> nat -> nat) (st : store A) (p : nat)
    (l : list A) (i : nat) (part : A) :
  wf st ->
  load st p = Some (mkPath l) ->
  (S i < length l)%nat ->
  exists q st1 st2,
    CopyAt st p (Z.of_nat i) = Some (Some q, st1) /\
    load st1 p = Some (mkPath l) /\
    PushBack growslice st1 q part = Some (tt, st2) /\
    load st2 p = Some (mkPath (<[S i := part]> l)).
Proof.
  intros Hwf Hload Hi.
  destruct (CopyAt_PushBack_overwrites growslice st p l i part Hwf Hload Hi)
    as (q & st1 & st2 & Hcopy & Hpush & Hover).
  destruct (CopyAt_load st p l (Z.of_nat i) Hwf Hload)
    as (q' & st1' & Hcopy' & _ & _ & _ & Hp); [lia|].
  rewrite Hcopy in Hcopy'. injection Hcopy' as <- <-.
  by exists q, st1, st2.
Qed.

Lemma X14_PushBack_on_CopyAt_overwrites_the_original_witness :
  exists q st1 st2,
    CopyAt (new_path empty_store ["X"; "Y"; "W"] 0).2 0 0 = Some (Some q, st1) /\
    load st1 0 = Some (mkPath ["X"; "Y"; "W"]) /\
    PushBack (fun _ n => n) st1 q "Z" = Some (tt, st2) /\
    load st2 0 = Some (mkPath ["X"; "Z"; "W"]).
Proof.
  apply (X14_PushBack_on_CopyAt_overwrites_the_original (fun _ n => n)
           (new_path empty_store ["X"; "Y"; "W"] 0).2 0%nat ["X"; "Y"; "W"] 0%nat "Z").
  - apply wf_new_path, wf_empty_store.
  - reflexivity.
  - simpl. lia.
Defined.

(** X15. PushBack on one Path changes another Path in at most one part and
    never in its size: the other Path reads as before, or as before with one
    part replaced by the part that was pushed. *)
Theorem X15_PushBack_and_other_Paths {A : Type} `{Part A}
    (growslice : nat -> nat -> nat) (st : store A) (p q : nat)
    (l : list A) (part : A) (st' : store A) :
  wf st ->
  p <> q ->
  load st q = Some (mkPath l) ->
  PushBack growslice st p part = Some (tt, st') ->
  exists l',
    load st' q = Some (mkPath l') /\
    length l' = length l /\
    (l' = l \/ exists i, l' = <[i := part]> l).
Proof.
  intros Hwf Hne (slq & Hslq & Hel)%load_elems. unfold PushBack, append.
  destruct (deref st p) as [sl|] eqn:Hsl; simpl; [|done].
  assert (Hload' : forall (arrays' : list (list A)) sl',
    load (set_parts (mkStore arrays' (objects st)) p sl') q
    = Some (mkPath (take (slen slq)
                      (drop (off slq) (default [] (arrays' !! arr slq)))))).
  { intros arrays' sl'. unfold load.
    rewrite deref_set_parts_ne by done. unfold deref in *; simpl.
    by rewrite Hslq. }
  destruct (slen sl <? scap sl)%nat.
  - destruct (arrays st !! arr sl) as [a|] eqn:Ha; simpl; [|done].
    destruct (off sl + slen sl <? length a)%nat; [|done].
    intros [= <-]. eexists. split; [apply Hload'|].
    assert (Hcases :
      take (slen slq) (drop (off slq)
        (default [] (<[arr sl := <[(off sl + slen sl)%nat := part]> a]> (arrays st)
                       !! arr slq))) = l \/
      exists i, take (slen slq) (drop (off slq)
        (default [] (<[arr sl := <[(off sl + slen sl)%nat := part]> a]> (arrays st)
                       !! arr slq))) = <[i := part]> l).
    { unfold elems, backing in Hel.
      destruct (decide (arr slq = arr sl)) as [Heq|Hdiff].
      - rewrite Heq in *. rewrite Ha in Hel; simpl in Hel.
        rewrite list_lookup_insert_eq by (by eapply lookup_lt_Some). simpl.
        destruct (decide (off sl + slen sl < off slq)%nat) as [Hlt|Hge].
        + left. by rewrite drop_insert_lt.
        + right. exists (off sl + slen sl - off slq)%nat.
          rewrite drop_insert_ge by lia. rewrite take_insert. rewrite Hel.
          case_decide; [done|]. by rewrite list_insert_ge by
            (rewrite <- Hel, length_take; lia).
      - left. by rewrite list_lookup_insert_ne. }
    destruct Hcases as [->|[i ->]]; [by split; [|left]|].
    split; [apply length_insert|]. right. by exists i.
  - intros [= <-].
    set (newarr := elems st sl ++ _).
    assert (Hsame : load (set_parts (mkStore (arrays st ++ [newarr]) (objects st)) p
                            (mkSlice (length (arrays st)) 0 (S (slen sl))
                               (Nat.max (S (slen sl))
                                  (growslice (scap sl) (S (slen sl)))))) q
                    = Some (mkPath l)).
    { rewrite Hload'. f_equal. f_equal. rewrite <- Hel.
      unfold elems, backing; simpl.
      destruct (Hwf q slq Hslq) as [Hle Harr].
      destruct (decide (scap slq = 0)%nat) as [Hz|Hnz].
      - assert (slen slq = 0)%nat as -> by lia. done.
      - destruct Harr as (b & Hb & _); [lia|].
        rewrite lookup_app_l by (by eapply lookup_lt_Some). done. }
    exists l. by split; [|split; [|left]].
Qed.

Lemma X15_PushBack_and_other_Paths_witness :
  exists l',
    load (mkStore [["X"; "Z"]] [mkSlice 0 0 2 2; mkSlice 0 0 2 2]) 0
    = Some (mkPath l') /\
    length l' = length ["X"; "Y"] /\
    (l' = ["X"; "Y"] \/ exists i, l' = <[i := "Z"]> ["X"; "Y"]).
Proof.
  apply (X15_PushBack_and_other_Paths (fun _ n => n)
           (mkStore [["X"; "Y"]] [mkSlice 0 0 2 2; mkSlice 0 0 1 2])
           1%nat 0%nat ["X"; "Y"] "Z").
  - pose proof (wf_new_path (@empty_store string) ["X"; "Y"] 0 wf_empty_store) as Hwf.
    pose proof (wf_CopyAt (new_path empty_store ["X"; "Y"] 0).2 0%nat 0
                  (Some 1%nat)
                  (mkStore [["X"; "Y"]] [mkSlice 0 0 2 2; mkSlice 0 0 1 2]) Hwf)
      as Hwf'.
    apply Hwf'. reflexivity.
  - lia.
  - reflexivity.
  - reflexivity.
Defined.

(** ** Further properties of prefix matching *)

Lemma fronts_match_eqb_prefix (texts candidates : list string) :
  fronts_match String.eqb texts candidates = true <->
  exists rest, texts = candidates ++ rest.
Proof.
  revert texts. induction candidates as [|c cs IH]; intros texts; simpl.
  - split; [intros _; by exists texts|done].
  - destruct texts as [|t ts].
    + split; [done|]. by intros [rest Hrest].
    + rewrite andb_true_iff, String.eqb_eq, IH. split.
      * intros [-> [rest ->]]. by exists rest.
      * intros [rest [= -> ->]]. split; [done|]. by exists rest.
Qed.

(** X16. HasPrefix holds exactly when the texts of the parts of the Path
    start with the pieces of the subject between its dots, piece for piece
    and byte for byte; it never panics. *)
Theorem X16_HasPrefix_is_list_prefix {A : Type} `{Part A}
    (p : Path A) (subject : string) :
  (HasPrefix p subject = Some true <->
   exists rest, map part_string (parts p) = Split subject "." ++ rest) /\
  (HasPrefix p subject = Some true \/ HasPrefix p subject = Some false).
Proof.
  unfold HasPrefix. rewrite has_prefix_fronts. split.
  - rewrite <- fronts_match_eqb_prefix. split; [by intros [= ->]|by intros ->].
  - destruct (fronts_match _ _ _); [by left|by right].
Qed.

(** X17. A dotted subject without square brackets parses to a Path that has
    every one of its dotted prefixes, and itself, as a prefix, under HasPrefix
    and under HasPrefixFold. *)
Theorem X17_dotted_prefixes_match (s t : string) :
  no_brackets s = true ->
  no_brackets t = true ->
  exists p,
    FromString_returns (s ++ String.String "." t) (Ok p) /\
    HasPrefix p s = Some true /\
    HasPrefix p (s ++ String.String "." t) = Some true /\
    forall fo, HasPrefixFold fo p s = Some true /\
               HasPrefixFold fo p (s ++ String.String "." t) = Some true.
Proof.
  intros Hs Ht.
  assert (Hst : no_brackets (s ++ String.String "." t) = true).
  { unfold no_brackets in *. rewrite IndexAny_free_of in *.
    rewrite free_of_app, Hs. simpl. exact Ht. }
  exists (mkPath (map FieldPart (Split (s ++ String.String "." t) "."))).
  split; [by apply FromString_fast_path|].
  assert (Hpre : forall sub : string,
            (exists rest, Split (s ++ String.String "." t) "." = Split sub "." ++ rest) ->
            fronts_match String.eqb
              (map fieldOrKey (map FieldPart (Split (s ++ String.String "." t) ".")))
              (Split sub ".") = true).
  { intros sub Hrest. apply fronts_match_eqb_prefix.
    rewrite map_map. simpl. by rewrite map_id. }
  assert (H1 : exists rest, Split (s ++ String.String "." t) "." = Split s "." ++ rest).
  { rewrite Split_app_sep. by eexists. }
  assert (H2 : exists rest, Split (s ++ String.String "." t) "."
                            = Split (s ++ String.String "." t) "." ++ rest).
  { exists []. by rewrite app_nil_r. }
  unfold HasPrefix, HasPrefixFold. rewrite !has_prefix_fronts. simpl.
  rewrite (Hpre _ H1), (Hpre _ H2). split; [done|]. split; [done|].
  intros fo. rewrite !has_prefix_fronts. simpl.
  by rewrite !fronts_match_eqb_fold by (by apply Hpre).
Qed.

Lemma X17_dotted_prefixes_match_witness :
  exists p,
    FromString_returns "Author.Publisher.Name" (Ok p) /\
    HasPrefix p "Author.Publisher" = Some true /\
    HasPrefix p "Author.Publisher.Name" = Some true /\
    forall fo, HasPrefixFold fo p "Author.Publisher" = Some true /\
               HasPrefixFold fo p "Author.Publisher.Name" = Some true.
Proof.
  apply (X17_dotted_prefixes_match "Author.Publisher" "Name"); reflexivity.
Defined.
